(** * SimpleHeap: the open list of python-pathfinding

    Shallow embedding of [pathfinding/core/heap.py].  The open list is a
    Python list handled through [heapq]; its entries are tuples of
    numbers that Python compares lexicographically.  Nodes live in an
    external container (graph, grid or world) and are reached through it
    again at every pop. *)

From Stdlib Require Import ZArith Lia ZifyNat Sorted.
From stdpp Require Import base option list.

Local Open Scope Z_scope.

(** ** Exceptions and results *)

Inductive exn :=
| AssertionError
| IndexError
| LookupError
| UnboundLocalError.

Inductive result (A : Type) :=
| Ok (a : A)
| Raise (e : exn).
Arguments Ok {A} a.
Arguments Raise {A} e.

#[global] Instance result_ret : MRet result := fun A a => Ok a.

#[global] Instance result_bind : MBind result := fun A B k r =>
  match r with
  | Ok a => k a
  | Raise e => Raise e
  end.

(** ** Python tuples of numbers

    A tuple such as [(node.f, heap_order, node.x, node.y)] is a list of
    integers; [<] on tuples is the lexicographic order, a proper prefix
    being smaller. *)

Definition node_tuple := list Z.

Fixpoint tuple_lt (a b : node_tuple) : bool :=
  match a, b with
  | [], [] => false
  | [], _ :: _ => true
  | _ :: _, [] => false
  | x :: a', y :: b' =>
      if x <? y then true
      else if y <? x then false
      else tuple_lt a' b'
  end.

(** ** heapq

    [heapq.heappush] and [heapq.heappop] with their two helpers, on a
    list indexed from 0.  A loop whose position moves towards the root
    or towards the leaves runs at most [length heap] times; the fuel of
    each loop is that bound, and at fuel 0 the loop condition is false.
    An index that would be out of range in Python is never reached; the
    corresponding branch returns the heap as it is. *)

Section HeapQ.
Context {A : Type}.
Variable lt : A -> A -> bool.

(** parentpos = (pos - 1) >> 1 *)
Definition parent (pos : nat) : nat := ((pos - 1) / 2)%nat.

(** while pos > startpos: ... heap[pos] = newitem *)
Fixpoint siftdown_loop (fuel : nat) (heap : list A) (newitem : A)
    (startpos pos : nat) : list A :=
  match fuel with
  | O => <[pos := newitem]> heap
  | S fuel' =>
      if decide (startpos < pos)%nat then
        let parentpos := parent pos in
        match heap !! parentpos with
        | Some parent =>
            if lt newitem parent then
              siftdown_loop fuel' (<[pos := parent]> heap) newitem
                startpos parentpos
            else <[pos := newitem]> heap
        | None => heap
        end
      else <[pos := newitem]> heap
  end.

Definition _siftdown (heap : list A) (startpos pos : nat) : list A :=
  match heap !! pos with
  | Some newitem => siftdown_loop pos heap newitem startpos pos
  | None => heap
  end.

(** while childpos < endpos: move the smaller child up.  Returns the
    heap and the position where the loop stops. *)
Fixpoint siftup_loop (fuel : nat) (heap : list A) (endpos pos : nat)
    : list A * nat :=
  match fuel with
  | O => (heap, pos)
  | S fuel' =>
      let childpos := (2 * pos + 1)%nat in
      if decide (childpos < endpos)%nat then
        let rightpos := (childpos + 1)%nat in
        let childpos' :=
          if decide (rightpos < endpos)%nat then
            match heap !! childpos, heap !! rightpos with
            | Some c, Some r => if negb (lt c r) then rightpos else childpos
            | _, _ => childpos
            end
          else childpos in
        match heap !! childpos' with
        | Some child =>
            siftup_loop fuel' (<[pos := child]> heap) endpos childpos'
        | None => (heap, pos)
        end
      else (heap, pos)
  end.

Definition _siftup (heap : list A) (pos : nat) : list A :=
  let endpos := length heap in
  let startpos := pos in
  match heap !! pos with
  | Some newitem =>
      let '(heap', pos') := siftup_loop endpos heap endpos pos in
      _siftdown (<[pos' := newitem]> heap') startpos pos'
  | None => heap
  end.

Definition heappush (heap : list A) (item : A) : list A :=
  let heap' := heap ++ [item] in
  _siftdown heap' 0 (length heap' - 1).

(** [None] stands for the IndexError of [heap.pop()] on an empty
    list. *)
Definition heappop (heap : list A) : option (A * list A) :=
  match last heap with
  | None => None
  | Some lastelt =>
      let heap' := removelast heap in
      match heap' with
      | [] => Some (lastelt, heap')
      | returnitem :: _ =>
          Some (returnitem, _siftup (<[0%nat := lastelt]> heap') 0)
      end
  end.

(** The heap invariant of [heapq]: no entry is smaller than its
    parent. *)
Definition edge_ok (heap : list A) (i : nat) : Prop :=
  forall v p, heap !! i = Some v -> heap !! parent i = Some p ->
              lt v p = false.

Definition is_heap (heap : list A) : Prop :=
  forall i, (0 < i)%nat -> edge_ok heap i.

(** A heap but for the entry at [pos], which may be smaller than its
    parent; the children of [pos] respect the parent of [pos]. *)
Definition heap_except (heap : list A) (pos : nat) : Prop :=
  (forall i, (0 < i)%nat -> i <> pos -> edge_ok heap i) /\
  (forall c v p, (0 < pos)%nat -> (0 < c)%nat -> parent c = pos ->
      heap !! c = Some v -> heap !! parent pos = Some p ->
      lt v p = false).

(** A heap but for the entry at [pos], which may be larger than its
    children; the children of [pos] respect the parent of [pos]. *)
Definition heap_hole (heap : list A) (pos : nat) : Prop :=
  (forall i, (0 < i)%nat -> parent i <> pos -> edge_ok heap i) /\
  (forall c v p, (0 < pos)%nat -> (0 < c)%nat -> parent c = pos ->
      heap !! c = Some v -> heap !! parent pos = Some p ->
      lt v p = false).
End HeapQ.

Arguments parent : simpl never.

(** ** Nodes and containers *)

(** The attributes of a node object that the heap reads.  A graph node
    carries [node_id]; a grid node carries [x], [y] and [grid_id]. *)
Record Node := {
  f : Z;
  closed : bool;
  node_id : Z;
  x : Z;
  y : Z;
  grid_id : Z
}.

(** Modelled from the spec: the classes [Graph], [Grid] and [World] of
    [graph.py], [grid.py] and [world.py], which the heap imports, each by
    the lookup it offers: [grid.node(node_id)], [grid.node(x, y)] and
    [grid.grids[grid_id].node(x, y)].  A lookup that finds nothing
    raises.  [Unsupported] is an object of any other class. *)
Inductive container :=
| Graph (node : Z -> option Node)
| Grid (node : Z -> Z -> option Node)
| World (grids : Z -> option (Z -> Z -> option Node))
| Unsupported.

Definition lookup_or_raise {A} (o : option A) : result A :=
  match o with
  | Some a => Ok a
  | None => Raise LookupError
  end.

(** node_tuple[i] *)
Definition item (t : node_tuple) (i : nat) : result Z :=
  match t !! i with
  | Some v => Ok v
  | None => Raise IndexError
  end.

(** The driver's assignments to the fields of a node object, seen
    through the container that owns it: the object at the address of
    [n] now has the fields of [n]. *)
Definition store (n : Node) (g : container) : container :=
  match g with
  | Graph node =>
      Graph (fun i => if i =? node_id n then Some n else node i)
  | Grid node =>
      Grid (fun a b =>
              if (a =? x n) && (b =? y n) then Some n else node a b)
  | World grids =>
      World (fun k =>
               if k =? grid_id n then
                 Some (fun a b =>
                         if (a =? x n) && (b =? y n) then Some n
                         else match grids k with
                              | Some node => node a b
                              | None => None
                              end)
               else grids k)
  | Unsupported => Unsupported
  end.

(** ** SimpleHeap *)

Record SimpleHeap := {
  grid : container;
  open_list : list node_tuple;
  number_pushed : Z
}.

Definition _get_node_tuple (g : container) (n : Node) (heap_order : Z)
    : result node_tuple :=
  match g with
  | Graph _ => Ok [f n; heap_order; node_id n]
  | Grid _ => Ok [f n; heap_order; x n; y n]
  | World _ => Ok [f n; heap_order; x n; y n; grid_id n]
  | Unsupported => Raise AssertionError
  end.

Definition __init__ (n : Node) (g : container) : result SimpleHeap :=
  t ← _get_node_tuple g n 0;
  Ok {| grid := g; open_list := [t]; number_pushed := 0 |}.

(** The three branches of [pop_node] that turn an entry back into a
    node; with no branch taken the variable [node] is unbound. *)
Definition resolve (g : container) (t : node_tuple) : result Node :=
  match g with
  | Graph node =>
      i ← item t 2;
      lookup_or_raise (node i)
  | Grid node =>
      a ← item t 2;
      b ← item t 3;
      lookup_or_raise (node a b)
  | World grids =>
      k ← item t 4;
      a ← item t 2;
      b ← item t 3;
      node ← lookup_or_raise (grids k);
      lookup_or_raise (node a b)
  | Unsupported => Raise UnboundLocalError
  end.

(** while self.open_list: ...; every round takes one entry off the
    list. *)
Fixpoint pop_loop (fuel : nat) (g : container) (ol : list node_tuple)
    : result (option Node * list node_tuple) :=
  match fuel with
  | O => Ok (None, ol)
  | S fuel' =>
      match ol with
      | [] => Ok (None, ol)
      | _ :: _ =>
          match heappop tuple_lt ol with
          | None => Raise IndexError
          | Some (t, ol') =>
              n ← resolve g t;
              if negb (closed n) then Ok (Some n, ol')
              else pop_loop fuel' g ol'
          end
      end
  end.

Definition pop_node (self : SimpleHeap)
    : result (option Node * SimpleHeap) :=
  '(r, ol) ← pop_loop (length (open_list self)) (grid self)
              (open_list self);
  Ok (r, {| grid := grid self; open_list := ol;
            number_pushed := number_pushed self |}).

Definition push_node (self : SimpleHeap) (n : Node) : result SimpleHeap :=
  let number_pushed' := number_pushed self + 1 in
  t ← _get_node_tuple (grid self) n number_pushed';
  Ok {| grid := grid self;
        open_list := heappush tuple_lt (open_list self) t;
        number_pushed := number_pushed' |}.

Definition remove_node (self : SimpleHeap) (n : Node) (old_f : Z)
    : result SimpleHeap :=
  Ok self.

Definition __len__ (self : SimpleHeap) : Z :=
  Z.of_nat (length (open_list self)).

(** ** The loop of [pop_node] with the entry it stops at

    Same loop; the result also names the entry whose node is returned,
    which holds the [f] the node had when it was pushed. *)
Fixpoint pop_loop_entry (fuel : nat) (g : container) (ol : list node_tuple)
    : result (option (node_tuple * Node) * list node_tuple) :=
  match fuel with
  | O => Ok (None, ol)
  | S fuel' =>
      match ol with
      | [] => Ok (None, ol)
      | _ :: _ =>
          match heappop tuple_lt ol with
          | None => Raise IndexError
          | Some (t, ol') =>
              n ← resolve g t;
              if negb (closed n) then Ok (Some (t, n), ol')
              else pop_loop_entry fuel' g ol'
          end
      end
  end.

Definition pop_node_entry (self : SimpleHeap)
    : result (option (node_tuple * Node) * SimpleHeap) :=
  '(r, ol) ← pop_loop_entry (length (open_list self)) (grid self)
              (open_list self);
  Ok (r, {| grid := grid self; open_list := ol;
            number_pushed := number_pushed self |}).

(** ** The search driver

    What a driver does with an open list, one call or assignment at a
    time.  [run] performs a script and collects what the pops return. *)
Inductive action :=
| Push (n : Node)
| Pop
| Remove (n : Node) (old_f : Z)
| Assign (n : Node).

Definition with_grid (g : container) (self : SimpleHeap) : SimpleHeap :=
  {| grid := g; open_list := open_list self;
     number_pushed := number_pushed self |}.

Fixpoint run (script : list action) (self : SimpleHeap)
    : result (list (option (node_tuple * Node)) * SimpleHeap) :=
  match script with
  | [] => Ok ([], self)
  | Push n :: rest =>
      self' ← push_node self n;
      run rest self'
  | Pop :: rest =>
      '(r, self') ← pop_node_entry self;
      '(rs, self'') ← run rest self';
      Ok (r :: rs, self'')
  | Remove n old_f :: rest =>
      self' ← remove_node self n old_f;
      run rest self'
  | Assign n :: rest =>
      run rest (with_grid (store n (grid self)) self)
  end.

(** ** Vocabulary of the statements *)

(** The pops of a run that returned a node, each with its entry. *)
Definition live (outs : list (option (node_tuple * Node)))
    : list (node_tuple * Node) :=
  omap id outs.

(** The first two components of an entry: the [f] the node had when it
    was pushed, and the insertion order it was given. *)
Definition pushed_f (t : node_tuple) : option Z := t !! 0%nat.
Definition insertion_order (t : node_tuple) : option Z := t !! 1%nat.

Definition is_push (a : action) : bool :=
  match a with Push _ => true | _ => false end.

Definition is_pop (a : action) : bool :=
  match a with Pop => true | _ => false end.

(** Number of calls of [push_node] in a script. *)
Definition pushes (script : list action) : Z :=
  Z.of_nat (length (filter (fun a => is_push a = true) script)).

(** The container holds the node [n] at the address of [n]. *)
Definition owns (g : container) (n : Node) : Prop :=
  match g with
  | Graph node => node (node_id n) = Some n
  | Grid node => node (x n) (y n) = Some n
  | World grids =>
      exists node, grids (grid_id n) = Some node /\ node (x n) (y n) = Some n
  | Unsupported => False
  end.

(** The identity fields that follow [f] and the insertion order in the
    entries of a node. *)
Definition identity (g : container) (n : Node) : list Z :=
  match g with
  | Graph _ => [node_id n]
  | Grid _ => [x n; y n]
  | World _ => [x n; y n; grid_id n]
  | Unsupported => []
  end.

(** Number of entries stored for the node [n]. *)
Definition retained (self : SimpleHeap) (n : Node) : Z :=
  Z.of_nat (length (filter (fun t => drop 2 t = identity (grid self) n)
                      (open_list self))).

(** Every stored entry leads to a closed node. *)
Definition all_stale (self : SimpleHeap) : Prop :=
  Forall (fun t => exists n, resolve (grid self) t = Ok n /\ closed n = true)
    (open_list self).

(** The node [n] after the driver has assigned [v] to its [f]. *)
Definition with_f (n : Node) (v : Z) : Node :=
  {| f := v; closed := closed n; node_id := node_id n;
     x := x n; y := y n; grid_id := grid_id n |}.

(** One cost revision of a node by the driver: the old entry is
    removed, the node gets its new [f], and is pushed again. *)
Definition revise (n : Node) (new_f : Z) : list action :=
  [Remove n (f n); Assign (with_f n new_f); Push (with_f n new_f)].

(** ** A small graph for the examples

    Three nodes of a graph: a start node [node_S] and two neighbours,
    [node_A] with [f = 5] and [node_B] with [f = 3]. *)
Definition graph_node (i fv : Z) (c : bool) : Node :=
  {| f := fv; closed := c; node_id := i; x := 0; y := 0; grid_id := 0 |}.

Definition node_S : Node := graph_node 0 0 false.
Definition node_A : Node := graph_node 1 5 false.
Definition node_B : Node := graph_node 2 3 false.

Definition graph_SAB : container :=
  Graph (fun i =>
           if i =? 0 then Some node_S
           else if i =? 1 then Some node_A
           else if i =? 2 then Some node_B
           else None).

(** [k] cost revisions of the node [n] in a row, each lowering [f] by
    one. *)
Fixpoint revisions (n : Node) (k : nat) : list action :=
  match k with
  | O => []
  | S k' =>
      revise n (f n - 1) ++ revisions (with_f n (f n - 1)) k'
  end.

(** The invariant of the open list: it is a heap, and every entry
    starts with an [f] and an insertion order that the counter has
    already passed. *)
Definition entry_ok (number_pushed : Z) (t : node_tuple) : Prop :=
  exists fv o, pushed_f t = Some fv /\ insertion_order t = Some o /\
               o <= number_pushed.

Definition heap_inv (self : SimpleHeap) : Prop :=
  is_heap tuple_lt (open_list self) /\
  Forall (entry_ok (number_pushed self)) (open_list self).

(** ** Vocabulary of the further properties *)

(** An entry whose node the container finds; one whose node it finds
    closed; one whose node it finds open. *)
Definition resolvable (g : container) (t : node_tuple) : Prop :=
  exists n, resolve g t = Ok n.

Definition stale (g : container) (t : node_tuple) : Prop :=
  exists n, resolve g t = Ok n /\ closed n = true.

Definition open_entry (g : container) (t : node_tuple) : Prop :=
  exists n, resolve g t = Ok n /\ closed n = false.

(** The container has some node at the address of [n]. *)
Definition addressed (g : container) (n : Node) : Prop :=
  match g with
  | Graph node => is_Some (node (node_id n))
  | Grid node => is_Some (node (x n) (y n))
  | World grids =>
      exists node, grids (grid_id n) = Some node /\ is_Some (node (x n) (y n))
  | Unsupported => False
  end.

(** A script that pushes only nodes at addresses the container has when
    they are pushed. *)
Fixpoint well_addressed (g : container) (script : list action) : Prop :=
  match script with
  | [] => True
  | Push n :: rest => addressed g n /\ well_addressed g rest
  | Assign n :: rest => well_addressed (store n g) rest
  | _ :: rest => well_addressed g rest
  end.

(** The open lists that a driver can reach: built by [__init__], then
    used through any script. *)
Definition reachable (h : SimpleHeap) : Prop :=
  exists n0 g h0 script outs,
    __init__ n0 g = Ok h0 /\ run script h0 = Ok (outs, h).

(** The container holds a closed node at the address of [n]; and an
    action that leaves it so, assigning no open node to that address. *)
Definition closed_at (g : container) (n : Node) : Prop :=
  match g with
  | Graph node => exists m, node (node_id n) = Some m /\ closed m = true
  | Grid node => exists m, node (x n) (y n) = Some m /\ closed m = true
  | World grids =>
      exists node m, grids (grid_id n) = Some node /\
                     node (x n) (y n) = Some m /\ closed m = true
  | Unsupported => False
  end.

Definition keeps_closed (g : container) (n : Node) (a : action) : Prop :=
  match a with
  | Assign m => identity g m = identity g n -> closed m = true
  | _ => True
  end.

(** The node [n] after the driver has closed it. *)
Definition mark_closed (n : Node) : Node :=
  {| f := f n; closed := true; node_id := node_id n;
     x := x n; y := y n; grid_id := grid_id n |}.

(** Number of components of the entries of a container kind. *)
Definition arity (g : container) : nat :=
  match g with
  | Graph _ => 3
  | Grid _ => 4
  | World _ => 5
  | Unsupported => 0
  end.

(** * Properties *)

Ltac Zify.zify_post_hook ::= Z.div_mod_to_equations.

(** ** heapq on small inputs *)

Example heappush_ex :
  fold_left (heappush Z.ltb) [5; 3; 8; 1; 9; 2] [] = [1; 3; 2; 5; 9; 8].
Proof. reflexivity. Qed.

Example heappop_ex :
  heappop Z.ltb [1; 3; 2; 5; 9; 8] = Some (1, [2; 3; 8; 5; 9]).
Proof. reflexivity. Qed.

Example heappop_empty_ex : heappop Z.ltb [] = None.
Proof. reflexivity. Qed.

Example tuple_lt_ex :
  tuple_lt [2; 2; 1] [3; 1; 2] = true /\ tuple_lt [3; 1; 2] [3; 2; 1] = true /\
  tuple_lt [5; 0; 1] [5; 0; 1] = false /\ tuple_lt [5; 0] [5; 0; 1] = true.
Proof. by split_and!. Qed.

(** ** heapq keeps a heap *)

Section HeapQ_facts.
Context {A : Type}.
Variable lt : A -> A -> bool.
Hypothesis lt_irrefl : forall a, lt a a = false.
Hypothesis lt_trans :
  forall a b c, lt a b = true -> lt b c = true -> lt a c = true.
Hypothesis lt_connex :
  forall a b, lt a b = false -> lt b a = false -> a = b.

Lemma lt_asym a b : lt a b = true -> lt b a = false.
Proof.
  intros Hab. destruct (lt b a) eqn:Hba; [|done].
  rewrite <- (lt_irrefl a). symmetry. by apply lt_trans with b.
Qed.

Lemma le_trans a b c : lt b a = false -> lt c b = false -> lt c a = false.
Proof.
  intros Hab Hbc. destruct (lt c a) eqn:Hca; [|done].
  destruct (lt a b) eqn:Hlt.
  - rewrite <- Hbc. symmetry. by apply lt_trans with a.
  - assert (a = b) as -> by by apply lt_connex. congruence.
Qed.

Lemma lt_le_trans a b c : lt a b = true -> lt c b = false -> lt c a = false.
Proof. intros Hab Hbc. apply le_trans with b; [by apply lt_asym|done]. Qed.

Lemma parent_lt i : (0 < i)%nat -> (parent i < i)%nat.
Proof. unfold parent. lia. Qed.

Lemma parent_child c pos :
  (0 < c)%nat -> parent c = pos -> c = (2 * pos + 1)%nat \/ c = (2 * pos + 2)%nat.
Proof. unfold parent. lia. Qed.

Lemma insert_swap_cons (l : list A) j a b :
  l !! j = Some b -> b :: <[j := a]> l ≡ₚ a :: l.
Proof.
  revert j. induction l as [|c l IH]; intros [|j] Hj; simplify_eq/=.
  - apply Permutation_swap.
  - etrans; [apply Permutation_swap|].
    etrans; [|apply Permutation_swap].
    f_equiv. by apply IH.
Qed.

Lemma insert_swap_perm (l : list A) i j a b :
  i <> j -> l !! i = Some a -> l !! j = Some b ->
  <[i := b]> (<[j := a]> l) ≡ₚ l.
Proof.
  revert i j. induction l as [|c l IH]; intros [|i] [|j] Hij Hi Hj;
    simplify_eq/=.
  - by apply insert_swap_cons.
  - by apply insert_swap_cons.
  - f_equiv. apply IH; [congruence|done..].
Qed.

(** One round of either loop exchanges two entries of the heap that
    has [newitem] at the moving position. *)
Lemma insert_move_perm (l : list A) pos q newitem v :
  pos <> q -> (pos < length l)%nat -> l !! q = Some v ->
  <[q := newitem]> (<[pos := v]> l) ≡ₚ <[pos := newitem]> l.
Proof.
  intros Hne Hpos Hq.
  rewrite <- (list_insert_insert_eq l pos v newitem).
  apply insert_swap_perm; [done|..].
  - by rewrite list_lookup_insert_ne.
  - by apply list_lookup_insert_eq.
Qed.

Lemma siftdown_loop_length fuel (l : list A) newitem startpos pos :
  length (siftdown_loop lt fuel l newitem startpos pos) = length l.
Proof.
  revert l pos. induction fuel as [|fuel IH]; intros l pos; simpl.
  - by rewrite length_insert.
  - repeat case_match; rewrite ?IH, ?length_insert; done.
Qed.

Lemma siftdown_loop_perm fuel (l : list A) newitem startpos pos :
  (pos < length l)%nat ->
  siftdown_loop lt fuel l newitem startpos pos ≡ₚ <[pos := newitem]> l.
Proof.
  revert l pos. induction fuel as [|fuel IH]; intros l pos Hpos; simpl;
    [done|].
  destruct (decide (startpos < pos)%nat) as [Hlt|]; [|done].
  assert (parent pos < pos)%nat as Hpp by (apply parent_lt; lia).
  destruct (l !! parent pos) as [p|] eqn:Hp.
  2:{ apply lookup_ge_None in Hp. lia. }
  destruct (lt newitem p); [|done].
  rewrite IH by (rewrite length_insert; lia).
  apply insert_move_perm; [lia|done..].
Qed.

Lemma heap_except_root (m : list A) : heap_except lt m 0 -> is_heap lt m.
Proof. intros [E1 _] i Hi. apply E1; lia. Qed.

Lemma heap_except_settled (m : list A) pos newitem p :
  heap_except lt m pos -> m !! pos = Some newitem ->
  m !! parent pos = Some p -> lt newitem p = false -> is_heap lt m.
Proof.
  intros [E1 _] Hm Hp Hle i Hi.
  destruct (decide (i = pos)) as [->|Hne]; [|by apply E1].
  intros v q Hv Hq. by simplify_eq.
Qed.

(** Exchanging [newitem] with a larger parent moves the exception one
    level up. *)
Lemma heap_except_swap (m m' : list A) pos newitem p :
  (0 < pos)%nat ->
  m !! pos = Some newitem -> m !! parent pos = Some p ->
  lt newitem p = true ->
  m' !! pos = Some p -> m' !! parent pos = Some newitem ->
  (forall i, i <> pos -> i <> parent pos -> m' !! i = m !! i) ->
  heap_except lt m pos -> heap_except lt m' (parent pos).
Proof.
  intros Hpos Hm Hmp Hlt Hm'pos Hm'pp Hsame [E1 E2].
  pose proof (parent_lt pos Hpos) as Hpp. split.
  - intros i Hi Hne v q Hv Hq.
    destruct (decide (i = pos)) as [->|Hip].
    { simplify_eq. by apply lt_asym. }
    rewrite Hsame in Hv by done.
    destruct (decide (parent i = pos)) as [Hpi|Hpi].
    { rewrite Hpi, Hm'pos in Hq. simplify_eq. by eapply (E2 i). }
    destruct (decide (parent i = parent pos)) as [Hpe|Hpe].
    { rewrite Hpe, Hm'pp in Hq. simplify_eq.
      apply lt_le_trans with p; [done|].
      apply (E1 i); [done..|by rewrite Hpe]. }
    rewrite Hsame in Hq by done. by apply (E1 i).
  - intros c v q Hpp0 Hc Hpc Hv Hq.
    pose proof (parent_lt _ Hpp0) as Hgp. pose proof (parent_lt c Hc).
    rewrite Hsame in Hq by lia.
    assert (lt p q = false) as Hpq by (apply (E1 (parent pos)); [lia..|done|done]).
    destruct (decide (c = pos)) as [->|Hcp]; [by simplify_eq|].
    rewrite Hsame in Hv by lia.
    apply le_trans with p; [done|].
    apply (E1 c); [done..|by rewrite Hpc].
Qed.

Lemma siftdown_loop_heap fuel (l : list A) newitem pos :
  (pos <= fuel)%nat -> (pos < length l)%nat ->
  heap_except lt (<[pos := newitem]> l) pos ->
  is_heap lt (siftdown_loop lt fuel l newitem 0 pos).
Proof.
  revert l pos. induction fuel as [|fuel IH]; intros l pos Hfuel Hpos He;
    simpl.
  { assert (pos = 0)%nat as -> by lia. by apply heap_except_root. }
  destruct (decide (0 < pos)%nat) as [Hlt|].
  2:{ assert (pos = 0)%nat as -> by lia. by apply heap_except_root. }
  pose proof (parent_lt pos Hlt) as Hpp.
  destruct (l !! parent pos) as [p|] eqn:Hp.
  2:{ apply lookup_ge_None in Hp. lia. }
  destruct (lt newitem p) eqn:Hnp.
  - apply IH; [lia|rewrite length_insert; lia|].
    eapply heap_except_swap; [done| | | | | | |exact He].
    + by apply list_lookup_insert_eq.
    + rewrite list_lookup_insert_ne by lia. exact Hp.
    + done.
    + rewrite list_lookup_insert_ne by lia. by apply list_lookup_insert_eq.
    + apply list_lookup_insert_eq. rewrite !length_insert. lia.
    + intros i Hi1 Hi2. by rewrite !list_lookup_insert_ne.
  - eapply heap_except_settled; [done| | |done].
    + by apply list_lookup_insert_eq.
    + rewrite list_lookup_insert_ne by lia. exact Hp.
Qed.

Lemma siftdown_heap (m : list A) pos :
  (pos < length m)%nat -> heap_except lt m pos ->
  is_heap lt (_siftdown lt m 0 pos).
Proof.
  intros Hpos He. unfold _siftdown.
  destruct (m !! pos) as [newitem|] eqn:Hm.
  2:{ apply lookup_ge_None in Hm. lia. }
  apply siftdown_loop_heap; [done..|]. by rewrite list_insert_id.
Qed.

Lemma siftdown_perm (m : list A) startpos pos :
  _siftdown lt m startpos pos ≡ₚ m.
Proof.
  unfold _siftdown. destruct (m !! pos) as [newitem|] eqn:Hm; [|done].
  rewrite siftdown_loop_perm by by eapply lookup_lt_Some.
  by rewrite list_insert_id.
Qed.

(** heappush *)
Lemma heappush_perm (h : list A) a : heappush lt h a ≡ₚ a :: h.
Proof.
  unfold heappush. rewrite siftdown_perm.
  symmetry. apply Permutation_cons_append.
Qed.

Lemma heappush_heap (h : list A) a :
  is_heap lt h -> is_heap lt (heappush lt h a).
Proof.
  intros Hh. unfold heappush. rewrite length_app. simpl.
  replace (length h + 1 - 1)%nat with (length h) by lia.
  apply siftdown_heap; [rewrite length_app; simpl; lia|]. split.
  - intros i Hi Hne v p Hv Hp.
    pose proof (parent_lt i Hi). apply lookup_lt_Some in Hv as Hlen.
    rewrite length_app in Hlen. simpl in Hlen.
    rewrite lookup_app_l in Hv, Hp by lia. by apply (Hh i).
  - intros c v p _ Hc Hpc Hv _.
    apply lookup_lt_Some in Hv. rewrite length_app in Hv. simpl in Hv.
    apply parent_child in Hpc; lia.
Qed.

(** Moving the smallest child into the hole moves the hole one level
    down. *)
Lemma heap_hole_step (l : list A) pos c child :
  heap_hole lt l pos -> (0 < c)%nat -> parent c = pos ->
  l !! c = Some child ->
  (forall s v, (0 < s)%nat -> parent s = pos -> l !! s = Some v ->
               lt v child = false) ->
  heap_hole lt (<[pos := child]> l) c.
Proof.
  intros [J1 J2] Hc Hpc Hchild Hmin.
  pose proof (parent_lt c Hc) as Hlt. apply lookup_lt_Some in Hchild as Hlen.
  split.
  - intros i Hi Hne v q Hv Hq. pose proof (parent_lt i Hi).
    destruct (decide (i = pos)) as [->|Hip].
    + rewrite list_lookup_insert_eq in Hv by lia.
      rewrite list_lookup_insert_ne in Hq by lia. simplify_eq.
      by apply (J2 c).
    + rewrite list_lookup_insert_ne in Hv by done.
      destruct (decide (parent i = pos)) as [Hpi|Hpi].
      * rewrite Hpi, list_lookup_insert_eq in Hq by lia. simplify_eq.
        by apply (Hmin i).
      * rewrite list_lookup_insert_ne in Hq by done. by apply (J1 i).
  - intros d v q _ Hd Hpd Hv Hq. pose proof (parent_lt d Hd).
    rewrite Hpc, list_lookup_insert_eq in Hq by lia.
    rewrite list_lookup_insert_ne in Hv by lia. injection Hq as <-.
    apply (J1 d); [done|lia|done|by rewrite Hpd].
Qed.

Lemma heap_hole_leaf (l : list A) pos newitem :
  heap_hole lt l pos -> (length l <= 2 * pos + 1)%nat ->
  heap_except lt (<[pos := newitem]> l) pos.
Proof.
  intros [J1 _] Hleaf. split.
  - intros i Hi Hne v q Hv Hq.
    rewrite list_lookup_insert_ne in Hv by done.
    apply lookup_lt_Some in Hv as Hlen.
    assert (parent i <> pos) as Hpi.
    { intros Hpi. apply parent_child in Hpi; lia. }
    rewrite list_lookup_insert_ne in Hq by done. by apply (J1 i).
  - intros c v p _ Hc Hpc Hv _.
    apply lookup_lt_Some in Hv. rewrite length_insert in Hv.
    apply parent_child in Hpc; lia.
Qed.

Lemma siftup_loop_S fuel (heap : list A) endpos pos :
  siftup_loop lt (S fuel) heap endpos pos =
    let childpos := (2 * pos + 1)%nat in
    if decide (childpos < endpos)%nat then
      let rightpos := (childpos + 1)%nat in
      let childpos' :=
        if decide (rightpos < endpos)%nat then
          match heap !! childpos, heap !! rightpos with
          | Some c, Some r => if negb (lt c r) then rightpos else childpos
          | _, _ => childpos
          end
        else childpos in
      match heap !! childpos' with
      | Some child =>
          siftup_loop lt fuel (<[pos := child]> heap) endpos childpos'
      | None => (heap, pos)
      end
    else (heap, pos).
Proof. reflexivity. Qed.

Lemma siftup_loop_spec fuel (l : list A) pos l' pos' :
  siftup_loop lt fuel l (length l) pos = (l', pos') ->
  (pos < length l)%nat -> (length l - pos <= fuel)%nat ->
  length l' = length l /\ (pos' < length l)%nat /\
  (length l <= 2 * pos' + 1)%nat /\
  (forall newitem, <[pos' := newitem]> l' ≡ₚ <[pos := newitem]> l) /\
  (heap_hole lt l pos -> heap_hole lt l' pos').
Proof.
  revert l pos. induction fuel as [|fuel IH]; intros l pos Hrun Hpos Hfuel;
    [lia|].
  rewrite siftup_loop_S in Hrun. cbv zeta in Hrun.
  destruct (decide (2 * pos + 1 < length l)%nat) as [Hleft|Hleaf].
  2:{ injection Hrun as <- <-. split_and!; [done|lia|lia|done|done]. }
  destruct (lookup_lt_is_Some_2 l (2 * pos + 1)%nat Hleft) as [cl Hcl].
  rewrite Hcl in Hrun.
  assert (exists c child, l !! c = Some child /\ (0 < c)%nat /\
            parent c = pos /\
            (forall s v, (0 < s)%nat -> parent s = pos -> l !! s = Some v ->
                         lt v child = false) /\
            siftup_loop lt fuel (<[pos := child]> l) (length l) c
              = (l', pos')) as (c & child & Hchild & Hc & Hpc & Hmin & Hrec).
  { assert (parent (2 * pos + 1) = pos) as Hpl by (unfold parent; lia).
    assert (parent (2 * pos + 1 + 1) = pos) as Hpr by (unfold parent; lia).
    destruct (decide (2 * pos + 1 + 1 < length l)%nat) as [Hright|Hright].
    - destruct (lookup_lt_is_Some_2 l _ Hright) as [cr Hcr].
      rewrite Hcr in Hrun.
      destruct (lt cl cr) eqn:Hlr; cbv [negb] in Hrun.
      + rewrite Hcl in Hrun. exists (2 * pos + 1)%nat, cl.
        split_and!; [done|lia|done| |done].
        intros s v Hs Hps Hv. destruct (parent_child s pos Hs Hps) as [->| ->].
        * by simplify_eq.
        * replace (2 * pos + 2)%nat with (2 * pos + 1 + 1)%nat in Hv by lia.
          simplify_eq. by apply lt_asym.
      + rewrite Hcr in Hrun. exists (2 * pos + 1 + 1)%nat, cr.
        split_and!; [done|lia|done| |done].
        intros s v Hs Hps Hv. destruct (parent_child s pos Hs Hps) as [->| ->].
        * by simplify_eq.
        * replace (2 * pos + 2)%nat with (2 * pos + 1 + 1)%nat in Hv by lia.
          by simplify_eq.
    - rewrite Hcl in Hrun. exists (2 * pos + 1)%nat, cl.
      split_and!; [done|lia|done| |done].
      intros s v Hs Hps Hv. apply lookup_lt_Some in Hv as Hlen.
      destruct (parent_child s pos Hs Hps) as [->| ->]; [|lia].
      by simplify_eq. }
  pose proof (parent_lt c Hc) as Hlt. apply lookup_lt_Some in Hchild as Hlen.
  rewrite <- (length_insert l pos child) in Hrec.
  apply IH in Hrec; rewrite ?length_insert; [|lia..].
  rewrite length_insert in Hrec.
  destruct Hrec as (Hl' & Hpos' & Hleaf' & Hperm & Hhole).
  split_and!; [done..| |].
  - intros newitem. rewrite Hperm. apply insert_move_perm; [lia|done..].
  - intros Hh. apply Hhole. by apply heap_hole_step.
Qed.

Lemma siftup_perm (l : list A) : _siftup lt l 0 ≡ₚ l.
Proof.
  unfold _siftup. destruct (l !! 0%nat) as [newitem|] eqn:Hl; [|done].
  apply lookup_lt_Some in Hl as Hlen.
  destruct (siftup_loop lt (length l) l (length l) 0) as [l' pos'] eqn:Hrun.
  apply siftup_loop_spec in Hrun as (_ & _ & _ & Hperm & _); [|lia..].
  by rewrite siftdown_perm, Hperm, list_insert_id.
Qed.

Lemma siftup_heap (l : list A) :
  heap_hole lt l 0 -> is_heap lt (_siftup lt l 0).
Proof.
  intros Hh. unfold _siftup.
  destruct (l !! 0%nat) as [newitem|] eqn:Hl.
  2:{ apply lookup_ge_None in Hl. intros i Hi v p Hv.
      apply lookup_lt_Some in Hv. lia. }
  apply lookup_lt_Some in Hl as Hlen.
  destruct (siftup_loop lt (length l) l (length l) 0) as [l' pos'] eqn:Hrun.
  apply siftup_loop_spec in Hrun as (Hl' & Hpos' & Hleaf & _ & Hhole);
    [|lia..].
  apply siftdown_heap; [rewrite length_insert; lia|].
  apply heap_hole_leaf; [by apply Hhole|lia].
Qed.

(** The root of a heap is a smallest entry. *)
Lemma heap_root_min (h : list A) r :
  is_heap lt h -> h !! 0%nat = Some r -> Forall (fun v => lt v r = false) h.
Proof.
  intros Hh Hr. apply Forall_lookup. intros i.
  induction (lt_wf i) as [i _ IH]. intros v Hv.
  destruct (decide (i = 0)%nat) as [->|Hi]; [by simplify_eq|].
  pose proof (parent_lt i ltac:(lia)) as Hlt.
  apply lookup_lt_Some in Hv as Hlen.
  destruct (lookup_lt_is_Some_2 h (parent i) ltac:(lia)) as [p Hp].
  apply le_trans with p; [by apply (IH (parent i))|].
  apply (Hh i); [lia|done..].
Qed.

Lemma is_heap_app (h1 h2 : list A) : is_heap lt (h1 ++ h2) -> is_heap lt h1.
Proof.
  intros Hh i Hi v p Hv Hp.
  apply (Hh i Hi); by apply lookup_app_l_Some.
Qed.

(** heappop *)
Lemma heappop_Some (h : list A) :
  h <> [] -> exists t h', heappop lt h = Some (t, h') /\ h ≡ₚ t :: h'.
Proof.
  intros Hne. destruct (exists_last Hne) as (h0 & a & ->).
  unfold heappop. rewrite last_snoc, removelast_last.
  destruct h0 as [|r tl]; [by eexists _, _|].
  eexists _, _. split; [done|]. rewrite siftup_perm. simpl.
  f_equiv. symmetry. apply Permutation_cons_append.
Qed.

Lemma heappop_heap (h : list A) t h' :
  is_heap lt h -> heappop lt h = Some (t, h') ->
  is_heap lt h' /\ Forall (fun v => lt v t = false) h.
Proof.
  intros Hh Hpop. destruct (decide (h = [])) as [->|Hne]; [done|].
  destruct (exists_last Hne) as (h0 & a & ->).
  unfold heappop in Hpop. rewrite last_snoc, removelast_last in Hpop.
  destruct h0 as [|r tl]; simplify_eq.
  { split; [|by repeat constructor].
    intros i Hi v p Hv. by rewrite lookup_nil in Hv. }
  split; [|by apply heap_root_min].
  apply siftup_heap. apply is_heap_app in Hh. split.
  - intros i Hi Hpi v p Hv Hp. pose proof (parent_lt i Hi).
    destruct i as [|i]; [lia|]. destruct (parent (S i)) as [|k] eqn:Hk; [done|].
    simpl in Hv, Hp. apply (Hh (S i)); [lia|done|by rewrite Hk].
  - intros; lia.
Qed.
End HeapQ_facts.

(** ** The order on entries *)

Lemma tuple_lt_irrefl a : tuple_lt a a = false.
Proof. induction a as [|v a IH]; simpl; [done|]. by rewrite Z.ltb_irrefl. Qed.

Lemma tuple_lt_trans a b c :
  tuple_lt a b = true -> tuple_lt b c = true -> tuple_lt a c = true.
Proof.
  revert b c. induction a as [|u a IH]; intros [|v b] [|w c]; simpl;
    try done.
  destruct (Z.ltb_spec u v), (Z.ltb_spec v u), (Z.ltb_spec v w),
    (Z.ltb_spec w v), (Z.ltb_spec u w), (Z.ltb_spec w u);
    try done; try lia.
  apply IH.
Qed.

Lemma tuple_lt_connex a b :
  tuple_lt a b = false -> tuple_lt b a = false -> a = b.
Proof.
  revert b. induction a as [|u a IH]; intros [|v b]; simpl; try done.
  destruct (Z.ltb_spec u v), (Z.ltb_spec v u); try done; try lia.
  intros Hab Hba. f_equal; [lia|by apply IH].
Qed.

(** An entry that is not smaller has no smaller [f], and with the same
    [f] no smaller insertion order. *)
Lemma tuple_le_f a b u v :
  tuple_lt b a = false -> a !! 0%nat = Some u -> b !! 0%nat = Some v -> u <= v.
Proof.
  destruct a as [|u' a], b as [|v' b]; simpl; try done.
  intros Hlt ? ?. simplify_eq.
  destruct (Z.ltb_spec v u); [done|lia].
Qed.

Lemma tuple_lt_order a b u i j :
  a !! 0%nat = Some u -> b !! 0%nat = Some u ->
  a !! 1%nat = Some i -> b !! 1%nat = Some j -> i < j ->
  tuple_lt a b = true.
Proof.
  destruct a as [|? [|i' a]], b as [|? [|j' b]]; simpl; try done.
  intros. simplify_eq. rewrite Z.ltb_irrefl.
  destruct (Z.ltb_spec i j); [done|lia].
Qed.

(** ** The loop of [pop_node] *)

Lemma Forall_part {A} (P : A -> Prop) (l k : list A) :
  l ⊆+ k -> Forall P k -> Forall P l.
Proof.
  rewrite !Forall_forall. intros Hsub Hk v Hv.
  apply Hk. by eapply elem_of_submseteq.
Qed.

Lemma heappop_tuple_Some (ol : list node_tuple) :
  ol <> [] -> exists t ol', heappop tuple_lt ol = Some (t, ol') /\ ol ≡ₚ t :: ol'.
Proof.
  apply heappop_Some; [apply tuple_lt_irrefl|apply tuple_lt_trans].
Qed.

Lemma heappop_tuple_heap (ol : list node_tuple) t ol' :
  is_heap tuple_lt ol -> heappop tuple_lt ol = Some (t, ol') ->
  is_heap tuple_lt ol' /\ Forall (fun v => tuple_lt v t = false) ol.
Proof.
  apply heappop_heap;
    [apply tuple_lt_irrefl|apply tuple_lt_trans|apply tuple_lt_connex].
Qed.

Lemma heappush_tuple_heap (ol : list node_tuple) t :
  is_heap tuple_lt ol -> is_heap tuple_lt (heappush tuple_lt ol t).
Proof.
  apply heappush_heap;
    [apply tuple_lt_irrefl|apply tuple_lt_trans|apply tuple_lt_connex].
Qed.

(** The loop with the entry and the loop of [pop_node] return the same
    node and leave the same list. *)
Lemma pop_loop_erase fuel g ol :
  pop_loop fuel g ol =
    '(r, ol') ← pop_loop_entry fuel g ol; Ok (option_map snd r, ol').
Proof.
  revert ol. induction fuel as [|fuel IH]; intros ol; simpl; [done|].
  destruct ol as [|t0 ol0]; [done|].
  destruct (heappop tuple_lt (t0 :: ol0)) as [[t ol']|]; [|done].
  destruct (resolve g t) as [n|e]; simpl; [|done].
  destruct (closed n); simpl; [apply IH|done].
Qed.

Lemma pop_node_erase self :
  pop_node self =
    '(r, self') ← pop_node_entry self; Ok (option_map snd r, self').
Proof.
  unfold pop_node, pop_node_entry. rewrite pop_loop_erase.
  destruct (pop_loop_entry _ _ _) as [[r ol]|e]; done.
Qed.

(** What the loop returns: an entry of the list whose node is open, the
    rest being a part of the list; on a heap the entry returned is a
    smallest one of those left. *)
Lemma pop_loop_entry_spec fuel g ol r ol' :
  (length ol <= fuel)%nat ->
  pop_loop_entry fuel g ol = Ok (r, ol') ->
  ol' ⊆+ ol /\
  (is_heap tuple_lt ol -> is_heap tuple_lt ol') /\
  match r with
  | Some (t, n) =>
      t ∈ ol /\ resolve g t = Ok n /\ closed n = false /\
      (length ol' < length ol)%nat /\
      (is_heap tuple_lt ol -> Forall (fun v => tuple_lt v t = false) ol')
  | None => ol' = []
  end.
Proof.
  revert ol. induction fuel as [|fuel IH]; intros ol Hfuel Hrun; simpl in Hrun.
  { destruct ol; [|simpl in Hfuel; lia]. by simplify_eq. }
  destruct ol as [|t0 ol0]; [by simplify_eq|].
  destruct (heappop_tuple_Some (t0 :: ol0)) as (t & ol1 & Hpop & Hperm);
    [done|].
  rewrite Hpop in Hrun.
  assert (S (length ol1) = length (t0 :: ol0)) as Hlen by by rewrite Hperm.
  assert (ol1 ⊆+ t0 :: ol0) as Hsub.
  { rewrite Hperm. by apply submseteq_cons. }
  destruct (resolve g t) as [n|e] eqn:Hres; simpl in Hrun; [|done].
  destruct (closed n) eqn:Hclosed; simpl in Hrun.
  - apply IH in Hrun as (Hsub' & Hheap & Hr); [|lia].
    split_and!.
    + by etrans.
    + intros Hh. apply Hheap. by eapply heappop_tuple_heap.
    + destruct r as [[t' n']|]; [|done].
      destruct Hr as (Hin & Hres' & Hcl & Hlt & Hmin). split_and!; [|done..|lia|].
      * eapply elem_of_submseteq; done.
      * intros Hh. apply Hmin. by eapply heappop_tuple_heap.
  - simplify_eq. split_and!; [done| | |done|done|lia|].
    + intros Hh. by eapply heappop_tuple_heap.
    + rewrite Hperm. by left.
    + intros Hh. eapply Forall_part; [exact Hsub|].
      by eapply heappop_tuple_heap.
Qed.

(** ** The invariant along a run *)

Lemma get_node_tuple_entry g n o t :
  _get_node_tuple g n o = Ok t ->
  pushed_f t = Some (f n) /\ insertion_order t = Some o.
Proof. destruct g; intros; by simplify_eq/=. Qed.

Lemma init_inv n g self : __init__ n g = Ok self -> heap_inv self.
Proof.
  unfold __init__. destruct (_get_node_tuple g n 0) as [t|e] eqn:Ht; [|done].
  intros; simplify_eq/=. apply get_node_tuple_entry in Ht as [Hf Ho]. split.
  - intros [|i] Hi v p Hv Hp; [lia|]. done.
  - repeat constructor. by exists (f n), 0.
Qed.

Lemma entry_ok_mono k k' t : k <= k' -> entry_ok k t -> entry_ok k' t.
Proof. intros Hk (fv & o & ? & ? & ?). exists fv, o. split_and!; [done..|lia]. Qed.

Lemma push_node_Ok self n self' :
  push_node self n = Ok self' ->
  exists t, _get_node_tuple (grid self) n (number_pushed self + 1) = Ok t /\
    open_list self' = heappush tuple_lt (open_list self) t /\
    grid self' = grid self /\
    number_pushed self' = number_pushed self + 1.
Proof.
  unfold push_node.
  destruct (_get_node_tuple _ _ _) as [t|e]; [|done].
  intros; simplify_eq/=. by exists t.
Qed.

Lemma push_inv self n self' :
  heap_inv self -> push_node self n = Ok self' -> heap_inv self'.
Proof.
  intros [Hh Hall] (t & Ht & Hol & _ & Hnp)%push_node_Ok.
  unfold heap_inv. rewrite Hol, Hnp. split; [by apply heappush_tuple_heap|].
  rewrite heappush_perm. apply get_node_tuple_entry in Ht as [Hf Ho].
  constructor.
  - exists (f n), (number_pushed self + 1). split_and!; [done..|lia].
  - eapply Forall_impl; [done|]. intros t'. apply entry_ok_mono. lia.
Qed.

Lemma pop_node_entry_Ok self r self' :
  pop_node_entry self = Ok (r, self') ->
  pop_loop_entry (length (open_list self)) (grid self) (open_list self)
    = Ok (r, open_list self') /\
  grid self' = grid self /\ number_pushed self' = number_pushed self.
Proof.
  unfold pop_node_entry.
  destruct (pop_loop_entry _ _ _) as [[r' ol]|e]; [|done].
  intros; by simplify_eq/=.
Qed.

Lemma pop_inv self r self' :
  heap_inv self -> pop_node_entry self = Ok (r, self') -> heap_inv self'.
Proof.
  intros [Hh Hall] (Hloop & _ & Hnp)%pop_node_entry_Ok.
  apply pop_loop_entry_spec in Hloop as (Hsub & Hheap & _); [|done].
  split; [by apply Hheap|]. rewrite Hnp. by eapply Forall_part.
Qed.

Lemma run_inv script self outs self' :
  heap_inv self -> run script self = Ok (outs, self') -> heap_inv self'.
Proof.
  revert self outs. induction script as [|a script IH]; intros self outs Hinv;
    simpl; [by intros; simplify_eq|].
  destruct a as [n| |n old_f|n]; simpl.
  - destruct (push_node self n) as [self1|e] eqn:Hpush; simpl; [|done].
    apply IH. by eapply push_inv.
  - destruct (pop_node_entry self) as [[r self1]|e] eqn:Hpop; simpl; [|done].
    destruct (run script self1) as [[rs self2]|e] eqn:Hrun; simpl; [|done].
    intros; simplify_eq. eapply IH; [|done]. by eapply pop_inv.
  - by apply IH.
  - by apply IH.
Qed.

(** ** Order of the pops *)

(** With no push in between, every pop returns an entry of the list the
    run starts from, and no later pop returns a smaller entry. *)
Lemma run_pops_sorted script self outs self' :
  Forall (fun a => is_push a = false) script ->
  is_heap tuple_lt (open_list self) ->
  run script self = Ok (outs, self') ->
  Forall (fun e => e.1 ∈ open_list self) (live outs) /\
  StronglySorted (fun a b => tuple_lt b.1 a.1 = false) (live outs).
Proof.
  revert self outs.
  induction script as [|a script IH]; intros self outs Hnp Hh; simpl.
  { intros; simplify_eq. split; constructor. }
  apply Forall_cons in Hnp as [Ha Hnp].
  destruct a as [n| |n old_f|n]; simpl;
    [done| |by apply IH|by apply (IH (with_grid _ self))].
  destruct (pop_node_entry self) as [[r self1]|e] eqn:Hpop; simpl; [|done].
  destruct (run script self1) as [[rs self2]|e] eqn:Hrun; simpl; [|done].
  intros; simplify_eq.
  apply pop_node_entry_Ok in Hpop as (Hloop & _ & _).
  apply pop_loop_entry_spec in Hloop as (Hsub & Hheap & Hr); [|done].
  apply IH in Hrun as [Hin Hsorted]; [|done|by apply Hheap].
  assert (Forall (fun e => e.1 ∈ open_list self) (live rs)) as Hin'.
  { eapply Forall_impl; [exact Hin|]. intros e He.
    eapply elem_of_submseteq; [exact He|exact Hsub]. }
  destruct r as [[t n]|]; [|by split].
  destruct Hr as (Ht & _ & _ & _ & Hmin). change (live (Some (t, n) :: rs))
    with ((t, n) :: live rs). split; constructor; [done..|].
  eapply Forall_impl; [exact Hin|]. intros e He. simpl.
  specialize (Hmin Hh). rewrite Forall_forall in Hmin. by apply Hmin.
Qed.

(** Along any run, a pop returns an entry of the list the run starts
    from or one pushed during the run; of two entries with the same [f]
    the one with the smaller insertion order is returned first. *)
Lemma run_tie_break script self outs self' :
  heap_inv self ->
  run script self = Ok (outs, self') ->
  Forall (fun e => e.1 ∈ open_list self \/
            exists o, insertion_order e.1 = Some o /\ number_pushed self < o)
    (live outs) /\
  (forall p q ea eb fv oa ob,
      live outs !! p = Some ea -> live outs !! q = Some eb ->
      pushed_f ea.1 = Some fv -> pushed_f eb.1 = Some fv ->
      insertion_order ea.1 = Some oa -> insertion_order eb.1 = Some ob ->
      oa < ob -> (p < q)%nat).
Proof.
  revert self outs.
  induction script as [|a script IH]; intros self outs Hinv; simpl.
  { intros; simplify_eq. split; [constructor|]. intros p q ea eb ? ? ? Hp.
    by destruct p. }
  destruct a as [n| |n old_f|n]; simpl;
    [| |by apply IH|by apply (IH (with_grid _ self))].
  - destruct (push_node self n) as [self1|e] eqn:Hpush; simpl; [|done].
    intros Hrun. pose proof (push_inv _ _ _ Hinv Hpush) as Hinv1.
    apply IH in Hrun as [Hin Htie]; [|done]. split; [|done].
    apply push_node_Ok in Hpush as (t & Ht & Hol & _ & Hnp).
    apply get_node_tuple_entry in Ht as [_ Ho].
    eapply Forall_impl; [exact Hin|]. intros e [He|(o & Heo & Hlt)].
    + rewrite Hol, heappush_perm in He.
      apply elem_of_cons in He as [->|He]; [|by left].
      right. exists (number_pushed self + 1). split; [done|lia].
    + right. exists o. split; [done|lia].
  - destruct (pop_node_entry self) as [[r self1]|e] eqn:Hpop; simpl; [|done].
    destruct (run script self1) as [[rs self2]|e] eqn:Hrun; simpl; [|done].
    intros; simplify_eq. pose proof (pop_inv _ _ _ Hinv Hpop) as Hinv1.
    apply pop_node_entry_Ok in Hpop as (Hloop & _ & Hnp).
    apply pop_loop_entry_spec in Hloop as (Hsub & _ & Hr); [|done].
    apply IH in Hrun as [Hin Htie]; [|done].
    assert (Forall (fun e => e.1 ∈ open_list self \/
              exists o, insertion_order e.1 = Some o /\ number_pushed self < o)
              (live rs)) as Hin'.
    { eapply Forall_impl; [exact Hin|]. intros e [He|(o & Heo & Hlt)].
      - left. eapply elem_of_submseteq; [exact He|exact Hsub].
      - right. exists o. split; [done|lia]. }
    destruct r as [[t n]|]; [|by split].
    destruct Hr as (Ht & _ & _ & _ & Hmin). specialize (Hmin (proj1 Hinv)).
    change (live (Some (t, n) :: rs)) with ((t, n) :: live rs).
    split; [constructor; [by left|done]|].
    intros [|p] [|q] ea eb fv oa ob Hp Hq Hfa Hfb Hoa Hob Hlt; simpl in *.
    + simplify_eq. lia.
    + lia.
    + exfalso. simplify_eq/=. rewrite Forall_forall in Hin.
      destruct (Hin ea) as [He|(o & Heo & Ho)];
        [by eapply list_elem_of_lookup_2| |].
      * rewrite Forall_forall in Hmin. specialize (Hmin _ He).
        rewrite (tuple_lt_order _ _ fv oa ob) in Hmin; done.
      * destruct Hinv as [_ Hall]. rewrite Forall_forall in Hall.
        destruct (Hall _ Ht) as (fv' & o' & _ & Ho' & Hle). simplify_eq. lia.
    + pose proof (Htie p q ea eb fv oa ob Hp Hq Hfa Hfb Hoa Hob Hlt). lia.
Qed.

Lemma StronglySorted_lookup {A} (R : A -> A -> Prop) (l : list A) i j a b :
  StronglySorted R l -> (i < j)%nat ->
  l !! i = Some a -> l !! j = Some b -> R a b.
Proof.
  intros Hs. revert i j. induction Hs as [|c l Hs IH Hall]; intros i j Hij;
    [by destruct i|].
  destruct i as [|i], j as [|j]; simpl; try lia.
  - intros ? Hj. simplify_eq. rewrite Forall_forall in Hall.
    apply Hall. by eapply list_elem_of_lookup_2.
  - apply IH. lia.
Qed.

(** C4 (ordering).  Once the pushes are over, whatever the driver
    assigns to the nodes between the pops, the nodes that the pops
    return come out by nondecreasing [f] at push time: of two pops, the
    later one returns an entry whose [f] is not smaller. *)
Theorem pops_ordered_by_f n0 g h0 script1 outs1 h script2 outs h' :
  __init__ n0 g = Ok h0 ->
  run script1 h0 = Ok (outs1, h) ->
  Forall (fun a => is_push a = false) script2 ->
  run script2 h = Ok (outs, h') ->
  forall i j ei ej,
    (i <= j)%nat ->
    live outs !! i = Some ei -> live outs !! j = Some ej ->
    exists fi fj,
      pushed_f ei.1 = Some fi /\ pushed_f ej.1 = Some fj /\ fi <= fj.
Proof.
  intros Hinit Hrun1 Hnp Hrun2 i j ei ej Hij Hi Hj.
  assert (heap_inv h) as [Hh Hall].
  { eapply run_inv; [|exact Hrun1]. by eapply init_inv. }
  destruct (run_pops_sorted _ _ _ _ Hnp Hh Hrun2) as [Hin Hsorted].
  rewrite Forall_forall in Hin. rewrite Forall_forall in Hall.
  destruct (Hall ei.1) as (fi & oi & Hfi & _);
    [apply Hin; by eapply list_elem_of_lookup_2|].
  destruct (Hall ej.1) as (fj & oj & Hfj & _);
    [apply Hin; by eapply list_elem_of_lookup_2|].
  exists fi, fj. split_and!; [done..|].
  destruct (decide (i = j)) as [->|Hne]; [simplify_eq; lia|].
  eapply tuple_le_f; [|exact Hfi|exact Hfj].
  eapply (StronglySorted_lookup _ _ i j ei ej Hsorted); [lia|done..].
Qed.

Lemma pops_ordered_by_f_witness :
  exists outs h',
    run [Pop; Pop; Pop]
      {| grid := graph_SAB;
         open_list := [[0; 0; 0]; [5; 1; 1]; [3; 2; 2]];
         number_pushed := 2 |} = Ok (outs, h') /\
    live outs !! 1%nat = Some ([3; 2; 2], node_B) /\
    live outs !! 2%nat = Some ([5; 1; 1], node_A) /\
    exists fi fj,
      pushed_f ([3; 2; 2], node_B).1 = Some fi /\
      pushed_f ([5; 1; 1], node_A).1 = Some fj /\ fi <= fj.
Proof.
  eexists _, _. split; [reflexivity|]. split; [reflexivity|].
  split; [reflexivity|].
  eapply (pops_ordered_by_f node_S graph_SAB _ [Push node_A; Push node_B]
            _ _ [Pop; Pop; Pop] _ _) with (i := 1%nat) (j := 2%nat).
  - reflexivity.
  - reflexivity.
  - repeat constructor.
  - reflexivity.
  - lia.
  - reflexivity.
  - reflexivity.
Defined.

(** C5 (tie-break stability).  Along any run of an open list, of two
    entries pushed with the same [f] the one with the smaller insertion
    order, that is the one pushed first, is returned by the earlier
    pop. *)
Theorem tie_break_by_insertion_order n0 g h0 script outs h' :
  __init__ n0 g = Ok h0 ->
  run script h0 = Ok (outs, h') ->
  forall p q ea eb fv oa ob,
    live outs !! p = Some ea -> live outs !! q = Some eb ->
    pushed_f ea.1 = Some fv -> pushed_f eb.1 = Some fv ->
    insertion_order ea.1 = Some oa -> insertion_order eb.1 = Some ob ->
    oa < ob -> (p < q)%nat.
Proof.
  intros Hinit Hrun. eapply run_tie_break; [|exact Hrun]. by eapply init_inv.
Qed.

Lemma tie_break_by_insertion_order_witness :
  exists outs h',
    run [Push node_B; Assign (with_f node_A 3); Push (with_f node_A 3);
         Pop; Pop; Pop]
      {| grid := graph_SAB; open_list := [[0; 0; 0]]; number_pushed := 0 |}
      = Ok (outs, h') /\
    live outs !! 1%nat = Some ([3; 1; 2], node_B) /\
    live outs !! 2%nat = Some ([3; 2; 1], with_f node_A 3) /\
    (1 < 2)%nat.
Proof.
  eexists _, _. split; [reflexivity|]. split; [reflexivity|].
  split; [reflexivity|].
  eapply (tie_break_by_insertion_order node_S graph_SAB _
            [Push node_B; Assign (with_f node_A 3); Push (with_f node_A 3);
             Pop; Pop; Pop])
    with (ea := ([3; 1; 2], node_B)) (eb := ([3; 2; 1], with_f node_A 3))
         (fv := 3) (oa := 1) (ob := 2);
    [reflexivity..|lia].
Defined.

(** ** Exhaustion *)

Lemma pop_loop_stale fuel g ol :
  (length ol <= fuel)%nat ->
  Forall (fun t => exists n, resolve g t = Ok n /\ closed n = true) ol ->
  pop_loop fuel g ol = Ok (None, []).
Proof.
  revert ol. induction fuel as [|fuel IH]; intros ol Hfuel Hstale; simpl.
  { destruct ol; [done|simpl in Hfuel; lia]. }
  destruct ol as [|t0 ol0]; [done|].
  destruct (heappop_tuple_Some (t0 :: ol0)) as (t & ol1 & Hpop & Hperm);
    [done|].
  rewrite Hpop.
  assert (S (length ol1) = length (t0 :: ol0)) as Hlen by by rewrite Hperm.
  rewrite Hperm in Hstale. apply Forall_cons in Hstale as [(n & Hn & Hc) Hrest].
  rewrite Hn. simpl. rewrite Hc. simpl. apply IH; [lia|done].
Qed.

(** C6 (exhaustion signal).  When the open list is empty, or every
    entry it still stores leads to a closed node, [pop_node] raises
    nothing and returns [None], however many entries [__len__] counted
    before the call. *)
Theorem pop_node_exhausted self :
  all_stale self ->
  pop_node self =
    Ok (None, {| grid := grid self; open_list := [];
                 number_pushed := number_pushed self |}).
Proof.
  intros Hstale. unfold pop_node. by rewrite pop_loop_stale.
Qed.

Lemma pop_node_exhausted_witness :
  exists outs self,
    run [Push node_B; Remove node_A 5; Assign (graph_node 1 2 false);
         Push (graph_node 1 2 false);
         Pop; Assign (graph_node 1 2 true);
         Pop; Assign (graph_node 2 3 true)]
      {| grid := graph_SAB; open_list := [[5; 0; 1]]; number_pushed := 0 |}
      = Ok (outs, self) /\
    0 < __len__ self /\
    pop_node self =
      Ok (None, {| grid := grid self; open_list := [];
                   number_pushed := number_pushed self |}).
Proof.
  eexists _, _. split; [reflexivity|]. split; [reflexivity|].
  apply pop_node_exhausted. repeat constructor.
  eexists. split; reflexivity.
Defined.

(** ** Single start node *)

(** C9 (single start node).  An open list built on a start node that
    its container holds and that is not closed returns that node at the
    first pop and [None] at the pop that follows. *)
Theorem single_start_node n g :
  owns g n -> closed n = false ->
  exists h h1,
    __init__ n g = Ok h /\
    pop_node h = Ok (Some n, h1) /\
    pop_node h1 = Ok (None, h1).
Proof.
  intros Howns Hopen.
  destruct g as [node|node|grids|]; simpl in Howns; [| | |done].
  - eexists _, _. split; [reflexivity|]. split.
    { unfold pop_node. simpl. rewrite Howns. simpl. by rewrite Hopen. }
    reflexivity.
  - eexists _, _. split; [reflexivity|]. split.
    { unfold pop_node. simpl. rewrite Howns. simpl. by rewrite Hopen. }
    reflexivity.
  - destruct Howns as (node & Hgrid & Hnode).
    eexists _, _. split; [reflexivity|]. split.
    { unfold pop_node. simpl. rewrite Hgrid. simpl. rewrite Hnode. simpl.
      by rewrite Hopen. }
    reflexivity.
Qed.

Lemma single_start_node_witness :
  exists h h1,
    __init__ node_S graph_SAB = Ok h /\
    pop_node h = Ok (Some node_S, h1) /\
    pop_node h1 = Ok (None, h1).
Proof. apply single_start_node; reflexivity. Defined.

(** ** Push, remove, and the container kinds *)

(** C8 (push contract).  [push_node] fails only on a container of no
    recognised kind.  Otherwise the counter goes up by one, the list
    gains exactly the one entry that [_get_node_tuple] builds with the
    new counter value, and the container with all its nodes is left as
    it was. *)
Theorem push_node_contract self n :
  match push_node self n with
  | Ok self' =>
      number_pushed self' = number_pushed self + 1 /\
      number_pushed self < number_pushed self' /\
      (exists t,
         _get_node_tuple (grid self) n (number_pushed self') = Ok t /\
         insertion_order t = Some (number_pushed self') /\
         open_list self' ≡ₚ t :: open_list self) /\
      __len__ self' = __len__ self + 1 /\
      grid self' = grid self
  | Raise e => e = AssertionError /\ grid self = Unsupported
  end.
Proof.
  destruct (push_node self n) as [self'|e] eqn:Hpush.
  - apply push_node_Ok in Hpush as (t & Ht & Hol & Hg & Hnp).
    rewrite Hnp. split_and!; [done|lia| | |done].
    + exists t. split_and!; [done| |by rewrite Hol, heappush_perm].
      by apply get_node_tuple_entry in Ht as [_ ?].
    + unfold __len__. rewrite Hol, heappush_perm. simpl. lia.
  - unfold push_node in Hpush. destruct (grid self); by simplify_eq/=.
Qed.

(** C10 (remove is a no-op).  [remove_node] returns the open list it
    was given: entries, counter, container and size are the same, and
    so is every run that follows. *)
Theorem remove_node_unchanged self n old_f :
  remove_node self n old_f = Ok self /\
  match remove_node self n old_f with
  | Ok self' =>
      open_list self' = open_list self /\
      number_pushed self' = number_pushed self /\
      grid self' = grid self /\
      __len__ self' = __len__ self
  | Raise _ => False
  end /\
  (forall script, run (Remove n old_f :: script) self = run script self).
Proof. by split_and!. Qed.

(** C7 (fail fast).  On a container that is neither a graph, a grid nor
    a world, building an entry and building the open list both raise
    AssertionError; on the three kinds both succeed. *)
Theorem unsupported_container_fails g n :
  match g with
  | Unsupported =>
      __init__ n g = Raise AssertionError /\
      forall o, _get_node_tuple g n o = Raise AssertionError
  | _ =>
      (exists h, __init__ n g = Ok h) /\
      forall o, exists t, _get_node_tuple g n o = Ok t
  end.
Proof. destruct g; simpl; split; eauto. Qed.

(** ** Retention *)

Lemma run_no_pop_length script self outs self' :
  Forall (fun a => is_pop a = false) script ->
  run script self = Ok (outs, self') ->
  length (open_list self') =
    (length (open_list self)
     + length (filter (fun a => is_push a = true) script))%nat.
Proof.
  revert self outs.
  induction script as [|a script IH]; intros self outs Hnp Hrun;
    simpl in Hrun.
  { simplify_eq. rewrite filter_nil. simpl. lia. }
  apply Forall_cons in Hnp as [Ha Hnp].
  destruct a as [n| |n old_f|n]; simpl in Hrun; [|done| |].
  - destruct (push_node self n) as [self1|e] eqn:Hpush; simpl in Hrun; [|done].
    apply IH in Hrun; [|done].
    apply push_node_Ok in Hpush as (t & _ & Hol & _ & _).
    rewrite Hrun, Hol, heappush_perm, filter_cons_True by done. simpl. lia.
  - apply IH in Hrun; [|done]. by rewrite filter_cons_False by done.
  - apply (IH (with_grid _ self)) in Hrun; [|done].
    by rewrite filter_cons_False by done.
Qed.

Lemma run_revisions_retained k n self node :
  grid self = Graph node ->
  exists self' node',
    run (revisions n k) self = Ok ([], self') /\
    grid self' = Graph node' /\
    retained self' n = retained self n + Z.of_nat k.
Proof.
  revert n self node. induction k as [|k IH]; intros n self node Hg.
  { exists self, node. split_and!; [done..|lia]. }
  set (n' := with_f n (f n - 1)).
  set (self1 :=
         {| grid := store n' (Graph node);
            open_list := heappush tuple_lt (open_list self)
                           [f n'; number_pushed self + 1; node_id n'];
            number_pushed := number_pushed self + 1 |}).
  assert (run (revisions n (S k)) self = run (revisions n' k) self1) as ->.
  { simpl. unfold push_node. simpl. rewrite Hg. reflexivity. }
  destruct (IH n' self1 (fun i => if i =? node_id n' then Some n' else node i))
    as (self' & node' & Hrun & Hg' & Hret); [done|].
  exists self', node'. split_and!; [done..|].
  clear IH. unfold retained in *. rewrite Hg', Hg. rewrite Hg' in Hret.
  subst self1 n'. cbn [identity with_f node_id open_list grid store] in *.
  rewrite Hret, heappush_perm, filter_cons_True by done.
  rewrite length_cons. unfold node_tuple. lia.
Qed.

(** C1 (retention), as the code has it.  Nothing bounds the number of
    entries stored: over a run with no pop in it the size of the open
    list grows by exactly the number of pushes, [remove_node] taking
    nothing away. *)
Theorem retention_counts_pushes script self outs self' :
  Forall (fun a => is_pop a = false) script ->
  run script self = Ok (outs, self') ->
  __len__ self' = __len__ self + pushes script.
Proof.
  intros Hnp Hrun. unfold __len__, pushes.
  rewrite (run_no_pop_length _ _ _ _ Hnp Hrun). lia.
Qed.

Lemma retention_counts_pushes_witness :
  exists outs self',
    run (Push node_A :: revisions node_A 3)
      {| grid := graph_SAB; open_list := [[0; 0; 0]]; number_pushed := 0 |}
      = Ok (outs, self') /\
    __len__ self' = 1 + 4.
Proof.
  eexists _, _. split; [reflexivity|].
  eapply (retention_counts_pushes (Push node_A :: revisions node_A 3)
            {| grid := graph_SAB; open_list := [[0; 0; 0]];
               number_pushed := 0 |}).
  - repeat constructor.
  - reflexivity.
Defined.

(** C1 as it is written fails: no constant bounds the number of entries
    stored for the one node [node_A] when its cost is revised again and
    again without a pop. *)
Lemma bounded_retention_fails :
  ~ exists c : Z, forall k outs self,
      (h0 ← __init__ node_S graph_SAB;
       run (Push node_A :: revisions node_A k) h0) = Ok (outs, self) ->
      retained self node_A <= c.
Proof.
  intros [c Hc].
  set (h1 := {| grid := graph_SAB;
                open_list := heappush tuple_lt [[0; 0; 0]] [5; 1; 1];
                number_pushed := 1 |}).
  destruct (run_revisions_retained (Z.to_nat c) node_A h1 _ eq_refl)
    as (self & node' & Hrun & _ & Hret).
  specialize (Hc (Z.to_nat c) [] self Hrun).
  change (retained h1 node_A) with 1 in Hret. lia.
Qed.

(** ** Removal *)

(** C2 (remove effectiveness) fails on the code: [node_A] is pushed,
    removed with its [f], neither pushed again nor closed, and the
    second pop returns it. *)
Theorem removed_node_is_returned :
  (h0 ← __init__ node_S graph_SAB;
   h1 ← push_node h0 node_A;
   h2 ← remove_node h1 node_A 5;
   '(r1, h3) ← pop_node h2;
   '(r2, _) ← pop_node h3;
   Ok [r1; r2]) = Ok [Some node_S; Some node_A].
Proof. reflexivity. Qed.

(** C3 (cost revision) on the code: [node_A] with [f = 5] starts the
    list, [node_B] with [f = 3] is pushed, [node_A] is revised to
    [f = 2].  The pops return [node_A] and then [node_B]; a third pop
    returns [node_A] again, through the entry keyed with 5. *)
Theorem stale_entry_is_returned :
  (h0 ← __init__ node_A graph_SAB;
   '(outs, _) ← run (Push node_B :: revise node_A 2 ++ [Pop; Pop; Pop]) h0;
   Ok outs)
  = Ok [Some ([2; 2; 1], with_f node_A 2);
        Some ([3; 1; 2], node_B);
        Some ([5; 0; 1], with_f node_A 2)].
Proof. reflexivity. Qed.

(** * Further properties of the open list *)

(** ** What one pop takes off the list *)

(** The entries that the loop takes off are the one it returns and,
    before it, entries of closed nodes; on a heap none of these is
    larger than the one returned. *)
Lemma pop_loop_entry_split fuel g ol r ol' :
  (length ol <= fuel)%nat ->
  pop_loop_entry fuel g ol = Ok (r, ol') ->
  exists skipped,
    ol ≡ₚ skipped ++ match r with Some e => e.1 :: ol' | None => ol' end /\
    Forall (stale g) skipped /\
    (is_heap tuple_lt ol ->
     match r with
     | Some e => Forall (fun s => tuple_lt e.1 s = false) skipped
     | None => True
     end).
Proof.
  revert ol. induction fuel as [|fuel IH]; intros ol Hfuel Hrun; simpl in Hrun.
  { destruct ol; [|simpl in Hfuel; lia]. simplify_eq. by exists []. }
  destruct ol as [|t0 ol0]; [simplify_eq; by exists []|].
  destruct (heappop_tuple_Some (t0 :: ol0)) as (t & ol1 & Hpop & Hperm);
    [done|].
  rewrite Hpop in Hrun.
  assert (S (length ol1) = length (t0 :: ol0)) as Hlen by by rewrite Hperm.
  destruct (resolve g t) as [n|e] eqn:Hres; simpl in Hrun; [|done].
  destruct (closed n) eqn:Hclosed; simpl in Hrun.
  - pose proof Hrun as Hspec.
    apply pop_loop_entry_spec in Hspec as (Hsub & _ & Hr); [|lia].
    apply IH in Hrun as (skipped & Hsplit & Hstale & Hmin); [|lia].
    exists (t :: skipped). split_and!.
    + rewrite Hperm, Hsplit. done.
    + constructor; [by exists n|done].
    + intros Hh. destruct (heappop_tuple_heap _ _ _ Hh Hpop) as [Hh1 Hroot].
      specialize (Hmin Hh1). destruct r as [[t' n']|]; [|done].
      constructor; [|done]. simpl. rewrite Forall_forall in Hroot.
      apply Hroot. destruct Hr as (Hin & _).
      rewrite Hperm. right. done.
  - simplify_eq. exists []. split_and!; [by rewrite Hperm|constructor|].
    intros _. constructor.
Qed.

Lemma pop_node_entry_of self n self' :
  pop_node self = Ok (Some n, self') ->
  exists t, pop_node_entry self = Ok (Some (t, n), self').
Proof.
  rewrite pop_node_erase.
  destruct (pop_node_entry self) as [[[[t m]|] h]|e]; simpl; [|done..].
  intros; simplify_eq. by exists t.
Qed.

Lemma pop_node_entry_None self self' :
  pop_node self = Ok (None, self') ->
  pop_node_entry self = Ok (None, self').
Proof.
  rewrite pop_node_erase.
  destruct (pop_node_entry self) as [[[[t m]|] h]|e]; simpl; [done| |done].
  by intros; simplify_eq.
Qed.

(** X1.  A node that [pop_node] returns is not closed, and it is the
    node the container holds at the address of an entry that was in the
    list; the list gets shorter, and container and counter stay. *)
Theorem pop_node_returns_open_node self n self' :
  pop_node self = Ok (Some n, self') ->
  closed n = false /\
  (exists t, t ∈ open_list self /\ resolve (grid self) t = Ok n) /\
  open_list self' ⊆+ open_list self /\
  __len__ self' < __len__ self /\
  grid self' = grid self /\ number_pushed self' = number_pushed self.
Proof.
  intros (t & Hpop)%pop_node_entry_of.
  apply pop_node_entry_Ok in Hpop as (Hloop & Hg & Hnp).
  apply pop_loop_entry_spec in Hloop as (Hsub & _ & Hin & Hres & Hc & Hlen & _);
    [|done].
  split_and!; [done|by exists t|done| |done|done].
  unfold __len__. lia.
Qed.

Lemma pop_node_returns_open_node_witness :
  exists self',
    pop_node {| grid := graph_SAB; open_list := [[3; 1; 2]; [5; 0; 1]];
                number_pushed := 1 |} = Ok (Some node_B, self') /\
    closed node_B = false /\ __len__ self' < 2.
Proof.
  eexists. split; [reflexivity|].
  edestruct (pop_node_returns_open_node
               {| grid := graph_SAB; open_list := [[3; 1; 2]; [5; 0; 1]];
                  number_pushed := 1 |}) as (Hc & _ & _ & Hlen & _);
    [reflexivity|].
  split; [exact Hc|exact Hlen].
Defined.

(** X2.  [pop_node] returns [None] exactly when every entry of the list
    leads to a closed node, and then it leaves the list empty. *)
Theorem pop_node_None_iff_all_stale self :
  (exists self', pop_node self = Ok (None, self')) <-> all_stale self.
Proof.
  split.
  - intros (self' & Hpop%pop_node_entry_None).
    apply pop_node_entry_Ok in Hpop as (Hloop & _ & _).
    pose proof Hloop as Hspec.
    apply pop_loop_entry_spec in Hspec as (_ & _ & Hnil); [|done].
    apply pop_loop_entry_split in Hloop as (skipped & Hsplit & Hstale & _);
      [|done].
    unfold all_stale. rewrite Hsplit, Hnil, app_nil_r. exact Hstale.
  - intros Hstale. eexists. unfold pop_node.
    by rewrite pop_loop_stale.
Qed.

(** X3.  After [pop_node] has returned [None] the list is empty, and
    the next call returns [None] again and changes nothing. *)
Theorem pop_node_None_again self self' :
  pop_node self = Ok (None, self') ->
  open_list self' = [] /\ __len__ self' = 0 /\
  pop_node self' = Ok (None, self').
Proof.
  intros Hpop%pop_node_entry_None.
  apply pop_node_entry_Ok in Hpop as (Hloop & Hg & Hnp).
  apply pop_loop_entry_spec in Hloop as (_ & _ & Hnil); [|done].
  destruct self' as [g' ol' np']. simpl in *. subst ol'.
  by split_and!.
Qed.

Lemma pop_node_None_again_witness :
  exists self',
    pop_node {| grid := store (graph_node 1 5 true) graph_SAB;
                open_list := [[5; 0; 1]]; number_pushed := 2 |}
      = Ok (None, self') /\
    pop_node self' = Ok (None, self').
Proof.
  eexists. split; [reflexivity|].
  eapply (pop_node_None_again
            {| grid := store (graph_node 1 5 true) graph_SAB;
               open_list := [[5; 0; 1]]; number_pushed := 2 |}).
  reflexivity.
Defined.

(** ** The errors of [pop_node] *)

Lemma pop_loop_Raise fuel g ol e :
  pop_loop fuel g ol = Raise e ->
  exists t, t ∈ ol /\ resolve g t = Raise e.
Proof.
  revert ol. induction fuel as [|fuel IH]; intros ol Hrun; simpl in Hrun;
    [done|].
  destruct ol as [|t0 ol0]; [done|].
  destruct (heappop_tuple_Some (t0 :: ol0)) as (t & ol1 & Hpop & Hperm);
    [done|].
  rewrite Hpop in Hrun.
  destruct (resolve g t) as [n|e'] eqn:Hres; simpl in Hrun.
  - destruct (closed n); simpl in Hrun; [|done].
    apply IH in Hrun as (t' & Hin & Hres'). exists t'. split; [|done].
    rewrite Hperm. by right.
  - simplify_eq. exists t. split; [|done]. rewrite Hperm. by left.
Qed.

Lemma pop_node_Raise self e :
  pop_node self = Raise e ->
  exists t, t ∈ open_list self /\ resolve (grid self) t = Raise e.
Proof.
  intros Hpop. unfold pop_node in Hpop.
  destruct (pop_loop _ _ _) as [[r ol]|e'] eqn:Hloop; simpl in Hpop; [done|].
  simplify_eq. by eapply pop_loop_Raise.
Qed.

(** X4.  When [pop_node] raises, the error is the one that finding the
    node of some stored entry raises; the call of [heappop], guarded by
    the loop condition, never fails. *)
Theorem pop_node_raises_only_lookup self e :
  pop_node self = Raise e ->
  exists t, t ∈ open_list self /\ resolve (grid self) t = Raise e.
Proof. apply pop_node_Raise. Qed.

Lemma pop_node_raises_only_lookup_witness :
  pop_node {| grid := graph_SAB; open_list := [[1; 0; 7]; [5; 1; 1]];
              number_pushed := 1 |} = Raise LookupError /\
  exists t, t ∈ [[1; 0; 7]; [5; 1; 1]] /\ resolve graph_SAB t = Raise LookupError.
Proof.
  split; [reflexivity|].
  apply (pop_node_raises_only_lookup
           {| grid := graph_SAB; open_list := [[1; 0; 7]; [5; 1; 1]];
              number_pushed := 1 |} LookupError).
  reflexivity.
Defined.

(** X5.  On a list whose entries all lead to a node of the container,
    [pop_node] raises nothing. *)
Theorem pop_node_total_on_resolvable self :
  Forall (resolvable (grid self)) (open_list self) ->
  exists r self', pop_node self = Ok (r, self').
Proof.
  intros Hall.
  destruct (pop_node self) as [[r self']|e] eqn:Hpop; [by eexists _, _|].
  destruct (pop_node_Raise _ _ Hpop) as (t & Hin & Hres).
  rewrite Forall_forall in Hall. destruct (Hall t Hin) as [n Hn]. congruence.
Qed.

Lemma pop_node_total_on_resolvable_witness :
  exists r self',
    pop_node {| grid := graph_SAB; open_list := [[3; 1; 2]; [5; 0; 1]];
                number_pushed := 1 |} = Ok (r, self').
Proof.
  apply (pop_node_total_on_resolvable
           {| grid := graph_SAB; open_list := [[3; 1; 2]; [5; 0; 1]];
              number_pushed := 1 |}).
  repeat constructor; eexists; reflexivity.
Defined.

(** ** Reachable open lists *)

Lemma reachable_inv h : reachable h -> heap_inv h.
Proof.
  intros (n0 & g & h0 & script & outs & Hinit & Hrun).
  eapply run_inv; [|exact Hrun]. by eapply init_inv.
Qed.

(** X6.  The open list of a driver is a heap at all times: after
    [__init__] and any sequence of pushes, pops, removes and
    assignments to nodes, no entry is smaller than its parent, and every
    entry carries an [f] and an insertion order not above the counter. *)
Theorem reachable_is_heap h :
  reachable h ->
  is_heap tuple_lt (open_list h) /\
  Forall (entry_ok (number_pushed h)) (open_list h).
Proof. apply reachable_inv. Qed.

Lemma reachable_is_heap_witness :
  exists outs h,
    run [Push node_A; Push node_B; Pop; Push (with_f node_B 1)]
      {| grid := graph_SAB; open_list := [[0; 0; 0]]; number_pushed := 0 |}
      = Ok (outs, h) /\
    is_heap tuple_lt (open_list h) /\
    Forall (entry_ok (number_pushed h)) (open_list h).
Proof.
  eexists _, _. split; [reflexivity|].
  apply reachable_is_heap.
  exists node_S, graph_SAB.
  eexists _, [Push node_A; Push node_B; Pop; Push (with_f node_B 1)], _.
  split; reflexivity.
Defined.

(** X7.  Of the entries in a reachable list, [pop_node] returns the
    smallest one whose node is open: the entries it takes off before it
    lead to closed nodes and are not larger, the entries it leaves are
    not smaller, and nothing else changes in the list. *)
Theorem pop_node_returns_smallest_open h t n h' :
  reachable h ->
  pop_node_entry h = Ok (Some (t, n), h') ->
  (exists skipped,
     open_list h ≡ₚ skipped ++ t :: open_list h' /\
     Forall (stale (grid h)) skipped /\
     Forall (fun s => tuple_lt t s = false) skipped) /\
  Forall (fun t' => tuple_lt t' t = false) (open_list h') /\
  (forall t', t' ∈ open_list h -> open_entry (grid h) t' ->
              tuple_lt t' t = false).
Proof.
  intros [Hh _]%reachable_inv (Hloop & _ & _)%pop_node_entry_Ok.
  pose proof Hloop as Hspec.
  apply pop_loop_entry_spec in Hspec as (_ & _ & _ & _ & _ & _ & Hmin);
    [|done].
  apply pop_loop_entry_split in Hloop as (skipped & Hsplit & Hstale & Hle);
    [|done].
  specialize (Hmin Hh). specialize (Hle Hh). simpl in Hsplit, Hle.
  split_and!; [by exists skipped|done|].
  intros t' Hin (m & Hm & Hopen).
  rewrite Hsplit in Hin. apply elem_of_app in Hin as [Hin|Hin].
  - rewrite Forall_forall in Hstale.
    destruct (Hstale _ Hin) as (m' & Hm' & Hc). congruence.
  - apply elem_of_cons in Hin as [->|Hin]; [apply tuple_lt_irrefl|].
    rewrite Forall_forall in Hmin. by apply Hmin.
Qed.

Lemma pop_node_returns_smallest_open_witness :
  exists h',
    pop_node_entry
      {| grid := store (graph_node 2 3 true) graph_SAB;
         open_list := [[0; 0; 0]; [5; 1; 1]; [3; 2; 2]];
         number_pushed := 2 |}
      = Ok (Some ([0; 0; 0], node_S), h') /\
    Forall (fun t' => tuple_lt t' [0; 0; 0] = false) (open_list h').
Proof.
  eexists. split; [reflexivity|].
  edestruct (pop_node_returns_smallest_open
               {| grid := store (graph_node 2 3 true) graph_SAB;
                  open_list := [[0; 0; 0]; [5; 1; 1]; [3; 2; 2]];
                  number_pushed := 2 |}) as (_ & Hrest & _).
  - exists node_S, graph_SAB.
    eexists _, [Push node_A; Push node_B; Assign (graph_node 2 3 true)], _.
    split; reflexivity.
  - reflexivity.
  - exact Hrest.
Defined.

(** X8.  An entry built for a node that the container holds leads back
    to that node: [_get_node_tuple] puts the identity fields where the
    branches of [pop_node] read them. *)
Theorem entry_leads_back g n o t :
  owns g n -> _get_node_tuple g n o = Ok t -> resolve g t = Ok n.
Proof.
  intros Howns Ht. destruct g as [node|node|grids|]; simplify_eq/=.
  - by rewrite Howns.
  - by rewrite Howns.
  - destruct Howns as (node & Hg & Hn). rewrite Hg. simpl. by rewrite Hn.
Qed.

Lemma entry_leads_back_witness :
  resolve graph_SAB [5; 7; 1] = Ok node_A.
Proof. apply (entry_leads_back graph_SAB node_A 7); reflexivity. Defined.

(** ** The counter *)

Lemma run_number_pushed script self outs self' :
  run script self = Ok (outs, self') ->
  number_pushed self' =
    number_pushed self
    + Z.of_nat (length (filter (fun a => is_push a = true) script)).
Proof.
  revert self outs.
  induction script as [|a script IH]; intros self outs Hrun; simpl in Hrun.
  { simplify_eq. rewrite filter_nil. simpl. lia. }
  destruct a as [n| |n old_f|n]; simpl in Hrun.
  - destruct (push_node self n) as [self1|e] eqn:Hpush; simpl in Hrun; [|done].
    apply IH in Hrun.
    apply push_node_Ok in Hpush as (t & _ & _ & _ & Hnp).
    rewrite Hrun, Hnp, filter_cons_True by done. rewrite length_cons. lia.
  - destruct (pop_node_entry self) as [[r self1]|e] eqn:Hpop; simpl in Hrun;
      [|done].
    destruct (run script self1) as [[rs self2]|e] eqn:Hrest; simpl in Hrun;
      [|done].
    simplify_eq. apply IH in Hrest.
    apply pop_node_entry_Ok in Hpop as (_ & _ & Hnp).
    rewrite Hrest, Hnp, filter_cons_False by done. done.
  - apply IH in Hrun. by rewrite filter_cons_False by done.
  - apply (IH (with_grid _ self)) in Hrun.
    by rewrite filter_cons_False by done.
Qed.

(** X9.  The counter counts the pushes: after [__init__] and any run
    it equals the number of calls of [push_node], whatever was popped
    or removed in between. *)
Theorem counter_counts_pushes n0 g h0 script outs h :
  __init__ n0 g = Ok h0 ->
  run script h0 = Ok (outs, h) ->
  number_pushed h = pushes script.
Proof.
  intros Hinit Hrun. apply run_number_pushed in Hrun. unfold pushes.
  unfold __init__ in Hinit.
  destruct (_get_node_tuple g n0 0); simplify_eq/=. lia.
Qed.

Lemma counter_counts_pushes_witness :
  exists outs h,
    run [Push node_A; Pop; Remove node_A 5; Push node_B; Pop; Pop]
      {| grid := graph_SAB; open_list := [[0; 0; 0]]; number_pushed := 0 |}
      = Ok (outs, h) /\
    number_pushed h = 2.
Proof.
  eexists _, _. split; [reflexivity|].
  eapply (counter_counts_pushes node_S graph_SAB _
            [Push node_A; Pop; Remove node_A 5; Push node_B; Pop; Pop]);
    reflexivity.
Defined.

(** ** Insertion orders *)

Lemma NoDup_part {A} (l k : list A) : l ⊆+ k -> NoDup k -> NoDup l.
Proof.
  intros [k' Hk]%submseteq_Permutation. rewrite Hk, NoDup_app. tauto.
Qed.

Lemma push_orders_NoDup self n self' :
  heap_inv self -> NoDup (insertion_order <$> open_list self) ->
  push_node self n = Ok self' ->
  NoDup (insertion_order <$> open_list self').
Proof.
  intros [_ Hall] Hnd (t & Ht & Hol & _ & _)%push_node_Ok.
  rewrite Hol, heappush_perm, fmap_cons. apply NoDup_cons. split; [|done].
  apply get_node_tuple_entry in Ht as [_ Ho]. rewrite Ho.
  intros (t' & Ho' & Hin)%list_elem_of_fmap.
  rewrite Forall_forall in Hall.
  destruct (Hall _ Hin) as (fv & o & _ & Hot & Hle).
  rewrite Hot in Ho'. injection Ho' as Ho'. lia.
Qed.

Lemma run_orders_NoDup script self outs self' :
  heap_inv self -> NoDup (insertion_order <$> open_list self) ->
  run script self = Ok (outs, self') ->
  NoDup (insertion_order <$> open_list self').
Proof.
  revert self outs.
  induction script as [|a script IH]; intros self outs Hinv Hnd Hrun;
    simpl in Hrun; [by simplify_eq|].
  destruct a as [n| |n old_f|n]; simpl in Hrun.
  - destruct (push_node self n) as [self1|e] eqn:Hpush; simpl in Hrun; [|done].
    eapply IH; [| |exact Hrun].
    + by eapply push_inv.
    + by eapply push_orders_NoDup.
  - destruct (pop_node_entry self) as [[r self1]|e] eqn:Hpop; simpl in Hrun;
      [|done].
    destruct (run script self1) as [[rs self2]|e] eqn:Hrest; simpl in Hrun;
      [|done].
    simplify_eq. eapply IH; [| |exact Hrest].
    + by eapply pop_inv.
    + apply pop_node_entry_Ok in Hpop as (Hloop & _ & _).
      apply pop_loop_entry_spec in Hloop as (Hsub & _); [|done].
      eapply NoDup_part; [|exact Hnd]. by apply fmap_submseteq.
  - by eapply IH.
  - by eapply (IH (with_grid _ self)).
Qed.

(** X10.  No two entries of a reachable list have the same insertion
    order, so the comparison of two entries is settled by [f] and the
    insertion order and never reaches the identity fields. *)
Theorem insertion_orders_distinct h i j ti tj :
  reachable h -> i <> j ->
  open_list h !! i = Some ti -> open_list h !! j = Some tj ->
  insertion_order ti <> insertion_order tj /\
  (tuple_lt ti tj = true \/ tuple_lt tj ti = true).
Proof.
  intros (n0 & g & h0 & script & outs & Hinit & Hrun) Hij Hi Hj.
  assert (NoDup (insertion_order <$> open_list h)) as Hnd.
  { eapply run_orders_NoDup; [by eapply init_inv| |exact Hrun].
    unfold __init__ in Hinit. destruct (_get_node_tuple g n0 0); simplify_eq/=.
    apply NoDup_singleton. }
  assert (insertion_order ti <> insertion_order tj) as Hne.
  { intros Heq. apply Hij. eapply NoDup_lookup; [exact Hnd|..].
    - by rewrite list_lookup_fmap, Hi.
    - by rewrite list_lookup_fmap, Hj, Heq. }
  split; [done|].
  destruct (tuple_lt ti tj) eqn:H1; [by left|].
  destruct (tuple_lt tj ti) eqn:H2; [by right|].
  exfalso. apply Hne. by rewrite (tuple_lt_connex _ _ H1 H2).
Qed.

Lemma insertion_orders_distinct_witness :
  insertion_order [3; 1; 2] <> insertion_order [3; 2; 1] /\
  (tuple_lt [3; 1; 2] [3; 2; 1] = true \/ tuple_lt [3; 2; 1] [3; 1; 2] = true).
Proof.
  eapply (insertion_orders_distinct
            {| grid := graph_SAB; open_list := [[0; 0; 0]; [3; 1; 2]; [3; 2; 1]];
               number_pushed := 2 |} 1%nat 2%nat).
  - exists node_S, graph_SAB.
    eexists _, [Push node_B; Push (with_f node_A 3)], _. split; reflexivity.
  - lia.
  - reflexivity.
  - reflexivity.
Defined.

(** ** Push followed by pop *)

Lemma tuple_lt_f a b u v :
  a !! 0%nat = Some u -> b !! 0%nat = Some v -> u < v -> tuple_lt a b = true.
Proof.
  destruct a as [|u' a], b as [|v' b]; simpl; try done.
  intros ? ? Hlt. simplify_eq. by destruct (Z.ltb_spec u v); [|lia].
Qed.

Lemma resolve_get_node_tuple g n o t :
  owns g n -> _get_node_tuple g n o = Ok t -> resolve g t = Ok n.
Proof.
  intros Howns Ht. destruct g as [node|node|grids|]; simplify_eq/=.
  - by rewrite Howns.
  - by rewrite Howns.
  - destruct Howns as (node & Hg & Hn). rewrite Hg. simpl. by rewrite Hn.
Qed.

(** X11.  Pushing an open node of the container whose [f] is below
    every [f] stored, and popping at once, returns that node and leaves
    the entries that were there before the push. *)
Theorem push_then_pop h n :
  reachable h -> owns (grid h) n -> closed n = false ->
  Forall (fun t => exists fv, pushed_f t = Some fv /\ f n < fv) (open_list h) ->
  exists h1 h2,
    push_node h n = Ok h1 /\ pop_node h1 = Ok (Some n, h2) /\
    open_list h2 ≡ₚ open_list h /\
    number_pushed h2 = number_pushed h + 1.
Proof.
  intros Hinv%reachable_inv Howns Hopen Hlow.
  destruct (push_node h n) as [h1|e] eqn:Hpush.
  2:{ unfold push_node in Hpush. destruct (grid h); by simplify_eq/=. }
  pose proof (push_inv _ _ _ Hinv Hpush) as [Hh1 _].
  apply push_node_Ok in Hpush as (t & Ht & Hol & Hg & Hnp).
  pose proof (resolve_get_node_tuple _ _ _ _ Howns Ht) as Hres.
  apply get_node_tuple_entry in Ht as [Hf _].
  assert (open_list h1 ≡ₚ t :: open_list h) as Hperm
    by by rewrite Hol, heappush_perm.
  destruct (open_list h1) as [|t0 ol0] eqn:Hol1.
  { by apply Permutation_nil_cons in Hperm. }
  destruct (heappop_tuple_Some (t0 :: ol0)) as (tm & ol2 & Hpop & Hperm2);
    [done|].
  destruct (heappop_tuple_heap _ _ _ Hh1 Hpop) as [_ Hmin].
  assert (tm = t) as ->.
  { assert (tm ∈ t :: open_list h) as Hin
      by (rewrite <- Hperm, Hperm2; by left).
    apply elem_of_cons in Hin as [?|Hin]; [done|]. exfalso.
    rewrite Forall_forall in Hlow. destruct (Hlow _ Hin) as (fv & Hfv & Hlt).
    rewrite Forall_forall in Hmin.
    assert (tuple_lt t tm = false) as Hle.
    { apply Hmin. rewrite Hperm. by left. }
    by rewrite (tuple_lt_f t tm (f n) fv) in Hle. }
  exists h1, {| grid := grid h1; open_list := ol2;
                number_pushed := number_pushed h1 |}.
  split_and!; [done| | |done].
  - unfold pop_node. rewrite Hol1. simpl length. cbn [pop_loop].
    rewrite Hpop, Hg, Hres. simpl. by rewrite Hopen.
  - simpl. apply (Permutation_cons_inv (a := t)).
    by rewrite <- Hperm2, Hperm.
Qed.

Lemma push_then_pop_witness :
  exists h1 h2,
    push_node {| grid := store (with_f node_B 1) graph_SAB;
                 open_list := [[3; 1; 2]; [5; 2; 1]]; number_pushed := 2 |}
      (with_f node_B 1) = Ok h1 /\
    pop_node h1 = Ok (Some (with_f node_B 1), h2) /\
    open_list h2 ≡ₚ [[3; 1; 2]; [5; 2; 1]] /\
    number_pushed h2 = 2 + 1.
Proof.
  apply (push_then_pop
           {| grid := store (with_f node_B 1) graph_SAB;
              open_list := [[3; 1; 2]; [5; 2; 1]]; number_pushed := 2 |}
           (with_f node_B 1)).
  - exists node_S, graph_SAB.
    eexists _, [Push node_B; Push node_A; Pop; Assign (with_f node_B 1)], _.
    split; reflexivity.
  - reflexivity.
  - reflexivity.
  - repeat constructor; eexists; (split; [reflexivity|]); simpl; lia.
Defined.

(** ** Closing a node *)

Lemma identity_store m g n : identity (store m g) n = identity g n.
Proof. by destruct g. Qed.

Lemma closed_at_stale g n t :
  closed_at g n -> drop 2 t = identity g n -> stale g t.
Proof.
  intros Hc Ht. destruct g as [node|node|grids|]; simpl in *; [| | |done].
  - destruct Hc as (m & Hm & Hcl).
    destruct t as [|a [|b [|c [|d t]]]]; simplify_eq/=.
    exists m. simpl. by rewrite Hm.
  - destruct Hc as (m & Hm & Hcl).
    destruct t as [|a [|b [|c [|d [|e t]]]]]; simplify_eq/=.
    exists m. simpl. by rewrite Hm.
  - destruct Hc as (node & m & Hg & Hm & Hcl).
    destruct t as [|a [|b [|c [|d [|e [|e' t]]]]]]; simplify_eq/=.
    exists m. simpl. rewrite Hg. simpl. by rewrite Hm.
Qed.

Lemma closed_at_store g n m :
  closed_at g n -> (identity g m = identity g n -> closed m = true) ->
  closed_at (store m g) n.
Proof.
  intros Hc Hkeep. destruct g as [node|node|grids|]; simpl in *; [| | |done].
  - destruct Hc as (m' & Hm' & Hcl).
    destruct (Z.eqb_spec (node_id n) (node_id m)) as [Heq|Hne].
    + exists m. split; [done|]. apply Hkeep. by rewrite Heq.
    + by exists m'.
  - destruct Hc as (m' & Hm' & Hcl).
    destruct (Z.eqb_spec (x n) (x m)) as [Hx|Hx],
      (Z.eqb_spec (y n) (y m)) as [Hy|Hy]; simpl; try by exists m'.
    exists m. split; [done|]. apply Hkeep. by rewrite Hx, Hy.
  - destruct Hc as (node & m' & Hg & Hm' & Hcl).
    destruct (Z.eqb_spec (grid_id n) (grid_id m)) as [Hk|Hk];
      [|by exists node, m'].
    destruct (Z.eqb_spec (x n) (x m)) as [Hx|Hx],
      (Z.eqb_spec (y n) (y m)) as [Hy|Hy].
    2-4: eexists _, m'; split; [done|]; simpl.
    + eexists _, m. split; [done|]. simpl.
      rewrite (proj2 (Z.eqb_eq _ _) Hx), (proj2 (Z.eqb_eq _ _) Hy). simpl.
      split; [done|]. apply Hkeep. by rewrite Hx, Hy, Hk.
    + rewrite (proj2 (Z.eqb_eq _ _) Hx), (proj2 (Z.eqb_neq _ _) Hy). simpl.
      by rewrite Hg.
    + rewrite (proj2 (Z.eqb_neq _ _) Hx). simpl. by rewrite Hg.
    + rewrite (proj2 (Z.eqb_neq _ _) Hx). simpl. by rewrite Hg.
Qed.

Lemma run_closed_at script self n outs self' :
  closed_at (grid self) n ->
  Forall (keeps_closed (grid self) n) script ->
  run script self = Ok (outs, self') ->
  Forall (fun e => drop 2 e.1 <> identity (grid self) n) (live outs) /\
  closed_at (grid self') n.
Proof.
  revert self outs.
  induction script as [|a script IH]; intros self outs Hc Hkeep Hrun;
    simpl in Hrun.
  { simplify_eq. split; [constructor|done]. }
  apply Forall_cons in Hkeep as [Ha Hkeep].
  destruct a as [m| |m old_f|m]; simpl in Hrun.
  - destruct (push_node self m) as [self1|e] eqn:Hpush; simpl in Hrun; [|done].
    apply push_node_Ok in Hpush as (t & _ & _ & Hg & _).
    rewrite <- Hg in *. by eapply IH.
  - destruct (pop_node_entry self) as [[r self1]|e] eqn:Hpop; simpl in Hrun;
      [|done].
    destruct (run script self1) as [[rs self2]|e] eqn:Hrest; simpl in Hrun;
      [|done].
    simplify_eq. apply pop_node_entry_Ok in Hpop as (Hloop & Hg & _).
    apply pop_loop_entry_spec in Hloop as (_ & _ & Hr); [|done].
    rewrite <- Hg in *. apply IH in Hrest as [Hout Hc']; [|done..].
    split; [|done]. destruct r as [[t m]|]; [|done].
    change (live (Some (t, m) :: rs)) with ((t, m) :: live rs).
    constructor; [|done]. simpl. intros Ht.
    destruct Hr as (_ & Hres & Hopen & _).
    destruct (closed_at_stale _ _ _ Hc Ht) as (m' & Hm' & Hcl).
    rewrite Hg in Hres. congruence.
  - by eapply IH.
  - simpl in Ha.
    apply (IH (with_grid (store m (grid self)) self)) in Hrun as [Hout Hc'].
    + simpl in Hout. rewrite identity_store in Hout. by split.
    + simpl. by apply closed_at_store.
    + simpl. eapply Forall_impl; [exact Hkeep|]. intros [m'| |m' f'|m']; simpl;
        rewrite ?identity_store; done.
Qed.

(** X12.  Closing a node takes all its entries out of play: while the
    container holds a closed node at an address, and the driver assigns
    no open node to that address, no pop returns through an entry with
    that address, however many entries were pushed for it. *)
Theorem closed_node_not_returned script self n outs self' :
  closed_at (grid self) n ->
  Forall (keeps_closed (grid self) n) script ->
  run script self = Ok (outs, self') ->
  Forall (fun e => drop 2 e.1 <> identity (grid self) n) (live outs).
Proof. intros Hc Hkeep Hrun. by eapply run_closed_at. Qed.

Lemma closed_node_not_returned_witness :
  exists outs self',
    run [Push node_B; Pop; Pop; Pop]
      {| grid := store (graph_node 1 2 true) graph_SAB;
         open_list := [[2; 2; 1]; [5; 0; 1]]; number_pushed := 2 |}
      = Ok (outs, self') /\
    live outs = [([3; 3; 2], node_B)] /\
    Forall (fun e => drop 2 e.1 <> [1]) (live outs).
Proof.
  eexists _, _. split; [reflexivity|]. split; [reflexivity|].
  eapply (closed_node_not_returned [Push node_B; Pop; Pop; Pop]
            {| grid := store (graph_node 1 2 true) graph_SAB;
               open_list := [[2; 2; 1]; [5; 0; 1]]; number_pushed := 2 |}
            node_A).
  - eexists. split; reflexivity.
  - repeat constructor.
  - reflexivity.
Defined.

(** ** How many nodes a run returns *)

Lemma run_returns_bounded script self outs self' :
  run script self = Ok (outs, self') ->
  (length (live outs) + length (open_list self')
   <= length (open_list self)
      + length (filter (fun a => is_push a = true) script))%nat.
Proof.
  revert self outs.
  induction script as [|a script IH]; intros self outs Hrun; simpl in Hrun.
  { simplify_eq. rewrite filter_nil. simpl. lia. }
  destruct a as [n| |n old_f|n]; simpl in Hrun.
  - destruct (push_node self n) as [self1|e] eqn:Hpush; simpl in Hrun; [|done].
    apply IH in Hrun.
    apply push_node_Ok in Hpush as (t & _ & Hol & _ & _).
    rewrite Hol, heappush_perm in Hrun.
    rewrite filter_cons_True by done. simpl in *. lia.
  - destruct (pop_node_entry self) as [[r self1]|e] eqn:Hpop; simpl in Hrun;
      [|done].
    destruct (run script self1) as [[rs self2]|e] eqn:Hrest; simpl in Hrun;
      [|done].
    simplify_eq. apply IH in Hrest.
    apply pop_node_entry_Ok in Hpop as (Hloop & _ & _).
    apply pop_loop_entry_spec in Hloop as (Hsub & _ & Hr); [|done].
    apply submseteq_length in Hsub.
    rewrite filter_cons_False by done.
    destruct r as [[t n]|].
    + change (live (Some (t, n) :: rs)) with ((t, n) :: live rs).
      destruct Hr as (_ & _ & _ & Hlt & _). simpl. lia.
    + change (live (None :: rs)) with (live rs). lia.
  - apply IH in Hrun. by rewrite filter_cons_False by done.
  - apply (IH (with_grid _ self)) in Hrun.
    by rewrite filter_cons_False by done.
Qed.

(** X13.  Every entry is returned at most once: over any run, the
    number of nodes returned plus the number of entries left is at most
    the number of entries at the start plus the number of pushes. *)
Theorem returns_bounded_by_entries script self outs self' :
  run script self = Ok (outs, self') ->
  Z.of_nat (length (live outs)) + __len__ self'
    <= __len__ self + pushes script.
Proof.
  intros Hrun%run_returns_bounded. unfold __len__, pushes. lia.
Qed.

Lemma returns_bounded_by_entries_witness :
  exists outs self',
    run [Push node_A; Pop; Pop; Pop; Push node_B; Pop; Pop]
      {| grid := graph_SAB; open_list := [[0; 0; 0]]; number_pushed := 0 |}
      = Ok (outs, self') /\
    Z.of_nat (length (live outs)) + __len__ self' <= 1 + 2.
Proof.
  eexists _, _. split; [reflexivity|].
  eapply (returns_bounded_by_entries
            [Push node_A; Pop; Pop; Pop; Push node_B; Pop; Pop]
            {| grid := graph_SAB; open_list := [[0; 0; 0]];
               number_pushed := 0 |}).
  reflexivity.
Defined.

(** ** Runs that raise nothing *)

Lemma resolvable_store g m t : resolvable g t -> resolvable (store m g) t.
Proof.
  intros [n Hn]. unfold resolvable.
  destruct g as [node|node|grids|]; simpl in *; [| | |done].
  - destruct (item t 2) as [i|]; simpl in *; [|done].
    destruct (i =? node_id m); [by eexists|]. by exists n.
  - destruct (item t 2) as [a|]; simpl in *; [|done].
    destruct (item t 3) as [b|]; simpl in *; [|done].
    destruct ((a =? x m) && (b =? y m)); [by eexists|]. by exists n.
  - destruct (item t 4) as [k|]; simpl in *; [|done].
    destruct (item t 2) as [a|]; simpl in *; [|done].
    destruct (item t 3) as [b|]; simpl in *; [|done].
    destruct (grids k) as [node|] eqn:Hg; simpl in *; [|done].
    destruct (k =? grid_id m); simpl; [|by exists n].
    destruct ((a =? x m) && (b =? y m)); [by eexists|]. by exists n.
Qed.

Lemma addressed_entry g n o :
  addressed g n ->
  exists t, _get_node_tuple g n o = Ok t /\ resolvable g t.
Proof.
  unfold resolvable. destruct g as [node|node|grids|]; simpl; [| | |done].
  - intros [m Hm]. eexists. split; [done|]. exists m. simpl. by rewrite Hm.
  - intros [m Hm]. eexists. split; [done|]. exists m. simpl. by rewrite Hm.
  - intros (node & Hg & [m Hm]). eexists. split; [done|]. exists m. simpl.
    rewrite Hg. simpl. by rewrite Hm.
Qed.

Lemma pop_node_entry_total self :
  Forall (resolvable (grid self)) (open_list self) ->
  exists r self', pop_node_entry self = Ok (r, self').
Proof.
  intros Hall.
  destruct (pop_node_entry self) as [[r self']|e] eqn:Hpop; [by eexists _, _|].
  assert (pop_node self = Raise e) as Hraise
    by by rewrite pop_node_erase, Hpop.
  destruct (pop_node_Raise _ _ Hraise) as (t & Hin & Hres).
  rewrite Forall_forall in Hall. destruct (Hall t Hin) as [n Hn]. congruence.
Qed.

Lemma run_total script self :
  Forall (resolvable (grid self)) (open_list self) ->
  well_addressed (grid self) script ->
  exists outs self', run script self = Ok (outs, self').
Proof.
  revert self. induction script as [|a script IH]; intros self Hall Hwa;
    simpl; [by eexists _, _|].
  destruct a as [n| |n old_f|n]; simpl in *.
  - destruct Hwa as [Hn Hwa].
    destruct (addressed_entry _ _ (number_pushed self + 1) Hn)
      as (t & Ht & Hres).
    unfold push_node. rewrite Ht. simpl. apply IH; simpl; [|done].
    rewrite heappush_perm. by constructor.
  - destruct (pop_node_entry_total self Hall) as (r & self1 & Hpop).
    rewrite Hpop. simpl.
    apply pop_node_entry_Ok in Hpop as (Hloop & Hg & _).
    apply pop_loop_entry_spec in Hloop as (Hsub & _); [|done].
    destruct (IH self1) as (rs & self2 & Hrun).
    + rewrite Hg. by eapply Forall_part.
    + by rewrite Hg.
    + rewrite Hrun. simpl. by eexists _, _.
  - by apply IH.
  - apply IH; simpl; [|done].
    eapply Forall_impl; [exact Hall|]. intros t. apply resolvable_store.
Qed.

(** X14.  Normal use raises nothing: an open list built on a node of
    the container, and driven by any script that pushes only nodes at
    addresses the container has, runs to the end, every pop returning a
    node or [None]. *)
Theorem well_addressed_run_total n0 g script :
  addressed g n0 -> well_addressed g script ->
  exists h0 outs h, __init__ n0 g = Ok h0 /\ run script h0 = Ok (outs, h).
Proof.
  intros Hn0 Hwa.
  destruct (addressed_entry _ _ 0 Hn0) as (t & Ht & Hres).
  unfold __init__. rewrite Ht. simpl.
  destruct (run_total script {| grid := g; open_list := [t];
                                number_pushed := 0 |})
    as (outs & h & Hrun); simpl; [by constructor|done|].
  by eexists _, _, _.
Qed.

Lemma well_addressed_run_total_witness :
  exists h0 outs h,
    __init__ node_S graph_SAB = Ok h0 /\
    run (Push node_B :: revise node_A 2 ++ [Pop; Pop; Pop; Pop]) h0
      = Ok (outs, h).
Proof.
  apply well_addressed_run_total.
  - by eexists.
  - simpl. split_and!; by eexists.
Defined.

(** ** Entries come out once, by increasing key *)

Lemma run_pops_part script self outs self' :
  Forall (fun a => is_push a = false) script ->
  run script self = Ok (outs, self') ->
  (live outs).*1 ++ open_list self' ⊆+ open_list self.
Proof.
  revert self outs.
  induction script as [|a script IH]; intros self outs Hnp Hrun;
    simpl in Hrun; [by simplify_eq|].
  apply Forall_cons in Hnp as [Ha Hnp].
  destruct a as [n| |n old_f|n]; simpl in Hrun; [done| | |].
  - destruct (pop_node_entry self) as [[r self1]|e] eqn:Hpop; simpl in Hrun;
      [|done].
    destruct (run script self1) as [[rs self2]|e] eqn:Hrest; simpl in Hrun;
      [|done].
    simplify_eq. apply IH in Hrest; [|done].
    apply pop_node_entry_Ok in Hpop as (Hloop & _ & _).
    apply pop_loop_entry_split in Hloop as (skipped & Hsplit & _); [|done].
    rewrite Hsplit. apply submseteq_inserts_l.
    destruct r as [[t n]|]; [|done].
    change (live (Some (t, n) :: rs)) with ((t, n) :: live rs).
    simpl. by apply submseteq_skip.
  - by apply IH.
  - by apply (IH (with_grid (store n (grid self)) self)).
Qed.

Lemma reachable_orders_NoDup h :
  reachable h -> NoDup (insertion_order <$> open_list h).
Proof.
  intros (n0 & g & h0 & script & outs & Hinit & Hrun).
  eapply run_orders_NoDup; [by eapply init_inv| |exact Hrun].
  unfold __init__ in Hinit. destruct (_get_node_tuple g n0 0); simplify_eq/=.
  apply NoDup_singleton.
Qed.

(** X15.  With no push in between, the pops of a reachable list return
    entries by strictly increasing key: no entry comes out twice, and a
    later pop returns a strictly larger [(f, insertion order)]. *)
Theorem pops_strictly_increasing h script outs h' i j ei ej :
  reachable h ->
  Forall (fun a => is_push a = false) script ->
  run script h = Ok (outs, h') ->
  (i < j)%nat ->
  live outs !! i = Some ei -> live outs !! j = Some ej ->
  tuple_lt ei.1 ej.1 = true.
Proof.
  intros Hreach Hnp Hrun Hij Hi Hj.
  pose proof (reachable_orders_NoDup _ Hreach) as Hnd.
  destruct (reachable_inv _ Hreach) as [Hh _].
  destruct (run_pops_sorted _ _ _ _ Hnp Hh Hrun) as [_ Hsorted].
  pose proof (StronglySorted_lookup _ _ i j ei ej Hsorted Hij Hi Hj) as Hle.
  simpl in Hle.
  destruct (tuple_lt ei.1 ej.1) eqn:Hlt; [done|]. exfalso.
  pose proof (tuple_lt_connex _ _ Hlt Hle) as Heq.
  pose proof (run_pops_part _ _ _ _ Hnp Hrun) as Hpart.
  assert (NoDup (insertion_order <$> (live outs).*1)) as Hnd'.
  { eapply NoDup_part; [|exact Hnd]. apply fmap_submseteq.
    etrans; [|exact Hpart]. by apply submseteq_inserts_r. }
  assert (i = j); [|lia].
  eapply NoDup_lookup; [exact Hnd'|..].
  - by rewrite !list_lookup_fmap, Hi.
  - by rewrite !list_lookup_fmap, Hj, Heq.
Qed.

Lemma pops_strictly_increasing_witness :
  exists outs h',
    run [Pop; Pop; Pop]
      {| grid := graph_SAB;
         open_list := [[0; 0; 0]; [3; 1; 2]; [3; 2; 1]];
         number_pushed := 2 |} = Ok (outs, h') /\
    live outs !! 1%nat = Some ([3; 1; 2], node_B) /\
    live outs !! 2%nat = Some ([3; 2; 1], node_A) /\
    tuple_lt [3; 1; 2] [3; 2; 1] = true.
Proof.
  eexists _, _. split; [reflexivity|]. split; [reflexivity|].
  split; [reflexivity|].
  eapply (pops_strictly_increasing
            {| grid := graph_SAB;
               open_list := [[0; 0; 0]; [3; 1; 2]; [3; 2; 1]];
               number_pushed := 2 |} [Pop; Pop; Pop] _ _ 1%nat 2%nat
            ([3; 1; 2], node_B) ([3; 2; 1], node_A)).
  - exists node_S, graph_SAB.
    eexists _, [Push node_B; Push (with_f node_A 3)], _. split; reflexivity.
  - repeat constructor.
  - reflexivity.
  - lia.
  - reflexivity.
  - reflexivity.
Defined.

(** ** A closed start node *)

(** X16.  [__init__] stores the start node whether it is closed or not.
    On a closed start node the list has size 1, and the first pop finds
    nothing to return and empties it. *)
Theorem closed_start_node n g :
  owns g n -> closed n = true ->
  exists h h1,
    __init__ n g = Ok h /\ __len__ h = 1 /\
    pop_node h = Ok (None, h1) /\ __len__ h1 = 0.
Proof.
  intros Howns Hclosed.
  destruct g as [node|node|grids|]; simpl in Howns; [| | |done].
  - eexists _, _. split; [reflexivity|]. split; [reflexivity|]. split.
    { unfold pop_node. simpl. rewrite Howns. simpl. by rewrite Hclosed. }
    reflexivity.
  - eexists _, _. split; [reflexivity|]. split; [reflexivity|]. split.
    { unfold pop_node. simpl. rewrite Howns. simpl. by rewrite Hclosed. }
    reflexivity.
  - destruct Howns as (node & Hgrid & Hnode).
    eexists _, _. split; [reflexivity|]. split; [reflexivity|]. split.
    { unfold pop_node. simpl. rewrite Hgrid. simpl. rewrite Hnode. simpl.
      by rewrite Hclosed. }
    reflexivity.
Qed.

Lemma closed_start_node_witness :
  exists h h1,
    __init__ (mark_closed node_A)
      (store (mark_closed node_A) graph_SAB) = Ok h /\
    __len__ h = 1 /\ pop_node h = Ok (None, h1) /\ __len__ h1 = 0.
Proof. apply closed_start_node; reflexivity. Defined.

(** ** The errors of a reachable list *)

Lemma arity_store m g : arity (store m g) = arity g.
Proof. by destruct g. Qed.

Lemma get_node_tuple_arity g n o t :
  _get_node_tuple g n o = Ok t -> length t = arity g /\ g <> Unsupported.
Proof. destruct g; intros; by simplify_eq/=. Qed.

Lemma resolve_Raise_shape g t e :
  g <> Unsupported -> length t = arity g -> resolve g t = Raise e ->
  e = LookupError.
Proof.
  intros Hg Hlen.
  destruct g as [node|node|grids|]; simpl in Hlen; [| | |done].
  - destruct t as [|a [|b [|c [|d t]]]]; simplify_eq/=.
    destruct (node c); simpl; congruence.
  - destruct t as [|a [|b [|c [|d [|d' t]]]]]; simplify_eq/=.
    destruct (node c d); simpl; congruence.
  - destruct t as [|a [|b [|c [|d [|k [|k' t]]]]]]; simplify_eq/=.
    destruct (grids k) as [node|]; simpl; [|congruence].
    destruct (node c d); simpl; congruence.
Qed.

Lemma run_shape script self outs self' :
  grid self <> Unsupported ->
  Forall (fun t => length t = arity (grid self)) (open_list self) ->
  run script self = Ok (outs, self') ->
  grid self' <> Unsupported /\
  Forall (fun t => length t = arity (grid self')) (open_list self').
Proof.
  revert self outs.
  induction script as [|a script IH]; intros self outs Hg Hall Hrun;
    simpl in Hrun; [by simplify_eq|].
  destruct a as [n| |n old_f|n]; simpl in Hrun.
  - destruct (push_node self n) as [self1|e] eqn:Hpush; simpl in Hrun; [|done].
    apply push_node_Ok in Hpush as (t & Ht & Hol & Hg1 & _).
    apply get_node_tuple_arity in Ht as [Hlen _].
    eapply IH; [| |exact Hrun]; rewrite Hg1; [done|].
    rewrite Hol, heappush_perm. by constructor.
  - destruct (pop_node_entry self) as [[r self1]|e] eqn:Hpop; simpl in Hrun;
      [|done].
    destruct (run script self1) as [[rs self2]|e] eqn:Hrest; simpl in Hrun;
      [|done].
    simplify_eq. apply pop_node_entry_Ok in Hpop as (Hloop & Hg1 & _).
    apply pop_loop_entry_spec in Hloop as (Hsub & _); [|done].
    eapply IH; [| |exact Hrest]; rewrite Hg1; [done|].
    by eapply Forall_part.
  - by eapply IH.
  - eapply (IH (with_grid _ self)); [| |exact Hrun]; simpl.
    + by destruct (grid self).
    + by rewrite arity_store.
Qed.

(** X17.  The only error that [pop_node] raises on a reachable list is
    the one of a node missing from the container: the entries have the
    number of components that the kind of the container asks for, so
    reading them back never fails. *)
Theorem reachable_pop_raises_lookup_only h e :
  reachable h -> pop_node h = Raise e -> e = LookupError.
Proof.
  intros (n0 & g & h0 & script & outs & Hinit & Hrun) Hpop.
  assert (grid h <> Unsupported /\
          Forall (fun t => length t = arity (grid h)) (open_list h))
    as [Hg Hall].
  { eapply run_shape; [| |exact Hrun]; unfold __init__ in Hinit;
      destruct (_get_node_tuple g n0 0) as [t|] eqn:Ht; simplify_eq/=;
      apply get_node_tuple_arity in Ht as [Hlen Hg]; [done|].
    by repeat constructor. }
  destruct (pop_node_Raise _ _ Hpop) as (t & Hin & Hres).
  rewrite Forall_forall in Hall.
  by eapply resolve_Raise_shape; [| |exact Hres]; [|apply Hall].
Qed.

Lemma reachable_pop_raises_lookup_only_witness :
  pop_node {| grid := graph_SAB; open_list := [[0; 1; 7]];
              number_pushed := 1 |} = Raise LookupError /\
  LookupError = LookupError.
Proof.
  split; [reflexivity|].
  eapply (reachable_pop_raises_lookup_only
            {| grid := graph_SAB; open_list := [[0; 1; 7]];
               number_pushed := 1 |}).
  - exists node_S, graph_SAB.
    eexists _, [Push (graph_node 7 0 false); Pop], _. split; reflexivity.
  - reflexivity.
Defined.

(** ** A cost revision in the protocol of the search *)

Lemma owns_store m g : g <> Unsupported -> owns (store m g) m.
Proof.
  intros Hg. destruct g as [node|node|grids|]; simpl; [| | |done].
  - by rewrite Z.eqb_refl.
  - by rewrite !Z.eqb_refl.
  - rewrite Z.eqb_refl. eexists. split; [done|]. simpl.
    by rewrite !Z.eqb_refl.
Qed.

Lemma closed_at_store_self g m n :
  g <> Unsupported -> closed m = true -> identity g m = identity g n ->
  closed_at (store m g) n.
Proof.
  intros Hg Hc Hid. destruct g as [node|node|grids|]; simpl in *; [| | |done].
  - injection Hid as Hi. exists m. by rewrite <- Hi, Z.eqb_refl.
  - injection Hid as Hx Hy. exists m. by rewrite <- Hx, <- Hy, !Z.eqb_refl.
  - injection Hid as Hx Hy Hk. eexists _, m.
    rewrite <- Hk, Z.eqb_refl. split; [done|]. simpl.
    by rewrite <- Hx, <- Hy, !Z.eqb_refl.
Qed.

Lemma push_pop_entry h n :
  heap_inv h -> owns (grid h) n -> closed n = false ->
  Forall (fun t => exists fv, pushed_f t = Some fv /\ f n < fv) (open_list h) ->
  exists h1 h2 t,
    push_node h n = Ok h1 /\
    pop_node_entry h1 = Ok (Some (t, n), h2) /\
    pushed_f t = Some (f n) /\
    open_list h2 ≡ₚ open_list h /\ grid h2 = grid h.
Proof.
  intros Hinv Howns Hopen Hlow.
  destruct (push_node h n) as [h1|e] eqn:Hpush.
  2:{ unfold push_node in Hpush. destruct (grid h); by simplify_eq/=. }
  pose proof (push_inv _ _ _ Hinv Hpush) as [Hh1 _].
  apply push_node_Ok in Hpush as (t & Ht & Hol & Hg & Hnp).
  pose proof (resolve_get_node_tuple _ _ _ _ Howns Ht) as Hres.
  apply get_node_tuple_entry in Ht as [Hf _].
  assert (open_list h1 ≡ₚ t :: open_list h) as Hperm
    by by rewrite Hol, heappush_perm.
  destruct (open_list h1) as [|t0 ol0] eqn:Hol1.
  { by apply Permutation_nil_cons in Hperm. }
  destruct (heappop_tuple_Some (t0 :: ol0)) as (tm & ol2 & Hpop & Hperm2);
    [done|].
  destruct (heappop_tuple_heap _ _ _ Hh1 Hpop) as [_ Hmin].
  assert (tm = t) as ->.
  { assert (tm ∈ t :: open_list h) as Hin
      by (rewrite <- Hperm, Hperm2; by left).
    apply elem_of_cons in Hin as [?|Hin]; [done|]. exfalso.
    rewrite Forall_forall in Hlow. destruct (Hlow _ Hin) as (fv & Hfv & Hlt).
    rewrite Forall_forall in Hmin.
    assert (tuple_lt t tm = false) as Hle.
    { apply Hmin. rewrite Hperm. by left. }
    by rewrite (tuple_lt_f t tm (f n) fv) in Hle. }
  exists h1, {| grid := grid h1; open_list := ol2;
                number_pushed := number_pushed h1 |}, t.
  split_and!; [done| |done| |done].
  - unfold pop_node_entry. rewrite Hol1. simpl length. cbn [pop_loop_entry].
    rewrite Hpop, Hg, Hres. simpl. by rewrite Hopen.
  - simpl. apply (Permutation_cons_inv (a := t)).
    by rewrite <- Hperm2, Hperm.
Qed.

(** X18.  A cost revision as the search makes it.  The node gets an
    [f] below every [f] stored, is removed and pushed again; the next
    pop returns it through the new entry; the driver closes it.  From
    then on, as long as no open node is assigned to its address, no pop
    returns through any entry of the node, the old ones included. *)
Theorem revised_node_returned_once h n v script outs h' :
  reachable h -> owns (grid h) n -> closed n = false ->
  Forall (fun t => exists fv, pushed_f t = Some fv /\ v < fv) (open_list h) ->
  Forall (keeps_closed (grid h) n) script ->
  run (revise n v ++ Pop :: Assign (mark_closed (with_f n v)) :: script) h
    = Ok (outs, h') ->
  exists t rest,
    outs = Some (t, with_f n v) :: rest /\ pushed_f t = Some v /\
    Forall (fun e => drop 2 e.1 <> identity (grid h) n) (live rest).
Proof.
  intros Hinv%reachable_inv Howns Hopen Hlow Hkeep Hrun.
  assert (grid h <> Unsupported) as Hg by by destruct (grid h).
  set (n' := with_f n v) in *.
  set (hA := with_grid (store n' (grid h)) h).
  destruct (push_pop_entry hA n') as (h1 & h2 & t & Hpush & Hpop & Hf & _ & Hg2);
    [done|by apply owns_store|done|done|].
  change (run (revise n v ++ Pop :: Assign (mark_closed n') :: script) h)
    with (self1 ← push_node hA n';
          '(r, self2) ← pop_node_entry self1;
          '(rs, self3) ← run script
                           (with_grid (store (mark_closed n') (grid self2))
                              self2);
          Ok (r :: rs, self3)) in Hrun.
  rewrite Hpush in Hrun. simpl in Hrun. rewrite Hpop in Hrun. simpl in Hrun.
  destruct (run script _) as [[rs self3]|e] eqn:Hrest; simpl in Hrun; [|done].
  simplify_eq. exists t, rs. split_and!; [done..|].
  apply run_closed_at with (n := n) in Hrest as [Hout _]; simpl.
  - eapply Forall_impl; [exact Hout|]. intros e He. simpl in He.
    rewrite identity_store, Hg2 in He. unfold hA in He. simpl in He.
    by rewrite identity_store in He.
  - rewrite Hg2. unfold hA. simpl.
    apply closed_at_store_self; [by destruct (grid h)|done|].
    by destruct (grid h).
  - eapply Forall_impl; [exact Hkeep|]. rewrite Hg2. unfold hA. simpl.
    intros [m| |m f'|m]; simpl; rewrite ?identity_store; done.
Qed.

Lemma revised_node_returned_once_witness :
  exists t rest,
    [Some ([2; 2; 1], with_f node_A 2); Some ([3; 1; 2], node_B); None]
      = Some (t, with_f node_A 2) :: rest /\
    pushed_f t = Some 2 /\
    Forall (fun e => drop 2 e.1 <> [1]) (live rest).
Proof.
  eapply (revised_node_returned_once
            {| grid := graph_SAB; open_list := [[3; 1; 2]; [5; 0; 1]];
               number_pushed := 1 |} node_A 2 [Pop; Pop]).
  - exists node_A, graph_SAB. eexists _, [Push node_B], _. split; reflexivity.
  - reflexivity.
  - reflexivity.
  - repeat constructor; eexists; (split; [reflexivity|]); simpl; lia.
  - repeat constructor.
  - reflexivity.
Defined.
